(** * luckydraw: the prize-draw session of [luckydraw.go]

    A shallow embedding of the [luckydraw] package: the three maps of a
    session (prizes, participants, winners per prize), the draw / revoke /
    redraw operations on them, the bulk loaders and the checksum-verified
    persistence.

    Conventions of the embedding.
    - Go [int] is [Z]; no arithmetic of the package can leave the 64-bit
      range (the only subtraction is guarded by [Amount >= 1]).
    - Go maps are [gmap]s.  Go does not fix the iteration order of a map;
      every function that ranges over a map and whose result depends on the
      order takes the order as an explicit choice sequence ([mapOrder]).
    - [rand.Intn] takes its raw random numbers from an explicit sequence.
    - The mutex is not modelled: every public operation holds it for its
      whole duration, so operations are atomic state transformers.
    - Readers are modelled by what the decoder hands to the package
      ([read_result]): the parsed rows of a CSV file, the decoded
      [SaveData] of a JSON file, or the decoder's error. *)

From Stdlib Require Import ZArith List Ascii String Lia Permutation.
From Stdlib Require Import DecimalString.
From stdpp Require Import base option list strings gmap fin_maps sorting.

Local Open Scope Z_scope.
#[local] Set Warnings "-clear-no-such-hyp".

(** ** crypto/md5 (RFC 1321) on byte lists *)

Module MD5.

Definition mask32 : Z := 4294967295.

Definition add32 (a b : Z) : Z := Z.land (a + b) mask32.

Definition not32 (a : Z) : Z := Z.lxor a mask32.

Definition rotl32 (x c : Z) : Z :=
  Z.land (Z.lor (Z.shiftl x c) (Z.shiftr x (32 - c))) mask32.

Definition K : list Z :=
  [ 3614090360; 3905402710; 606105819; 3250441966; 4118548399; 1200080426;
    2821735955; 4249261313; 1770035416; 2336552879; 4294925233; 2304563134;
    1804603682; 4254626195; 2792965006; 1236535329; 4129170786; 3225465664;
    643717713; 3921069994; 3593408605; 38016083; 3634488961; 3889429448;
    568446438; 3275163606; 4107603335; 1163531501; 2850285829; 4243563512;
    1735328473; 2368359562; 4294588738; 2272392833; 1839030562; 4259657740;
    2763975236; 1272893353; 4139469664; 3200236656; 681279174; 3936430074;
    3572445317; 76029189; 3654602809; 3873151461; 530742520; 3299628645;
    4096336452; 1126891415; 2878612391; 4237533241; 1700485571; 2399980690;
    4293915773; 2240044497; 1873313359; 4264355552; 2734768916; 1309151649;
    4149444226; 3174756917; 718787259; 3951481745 ].

Definition shifts : list Z :=
  [ 7; 12; 17; 22; 7; 12; 17; 22; 7; 12; 17; 22; 7; 12; 17; 22;
    5; 9; 14; 20; 5; 9; 14; 20; 5; 9; 14; 20; 5; 9; 14; 20;
    4; 11; 16; 23; 4; 11; 16; 23; 4; 11; 16; 23; 4; 11; 16; 23;
    6; 10; 15; 21; 6; 10; 15; 21; 6; 10; 15; 21; 6; 10; 15; 21 ].

Record digest := mkDigest { dA : Z; dB : Z; dC : Z; dD : Z }.

Definition init : digest :=
  mkDigest 1732584193 4023233417 2562383102 271733878.

(** Little-endian 32-bit word from four bytes. *)
Definition word_of_bytes (bs : list Z) : Z :=
  foldr (fun b acc => b + 256 * acc) 0 bs.

Fixpoint words_of_block (n : nat) (bs : list Z) : list Z :=
  match n with
  | O => []
  | S n' => word_of_bytes (take 4 bs) :: words_of_block n' (drop 4 bs)
  end.

Definition bytes_of_word (w : Z) : list Z :=
  [ Z.land w 255; Z.land (Z.shiftr w 8) 255;
    Z.land (Z.shiftr w 16) 255; Z.land (Z.shiftr w 24) 255 ].

(** One of the 64 operations of a block, on the working registers. *)
Definition round (M : list Z) (i : nat) (s : digest) : digest :=
  let '(mkDigest a b c d) := s in
  let iz := Z.of_nat i in
  let '(f, g) :=
    if (i <? 16)%nat then
      (Z.lor (Z.land b c) (Z.land (not32 b) d), iz)
    else if (i <? 32)%nat then
      (Z.lor (Z.land d b) (Z.land (not32 d) c), (5 * iz + 1) mod 16)
    else if (i <? 48)%nat then
      (Z.lxor b (Z.lxor c d), (3 * iz + 5) mod 16)
    else
      (Z.lxor c (Z.lor b (not32 d)), (7 * iz) mod 16) in
  let f' := add32 (add32 (add32 f a) (nth i K 0)) (nth (Z.to_nat g) M 0) in
  mkDigest d (add32 b (rotl32 f' (nth i shifts 0))) b c.

Definition block (s : digest) (bs : list Z) : digest :=
  let M := words_of_block 16 bs in
  let '(mkDigest a b c d) := foldl (fun st i => round M i st) s (seq 0 64) in
  mkDigest (add32 (dA s) a) (add32 (dB s) b) (add32 (dC s) c) (add32 (dD s) d).

Fixpoint blocks (n : nat) (s : digest) (bs : list Z) : digest :=
  match n with
  | O => s
  | S n' => blocks n' (block s (take 64 bs)) (drop 64 bs)
  end.

(** Padding: a [0x80] byte, zeros up to 56 modulo 64, the bit length on
    eight little-endian bytes. *)
Definition pad (msg : list Z) : list Z :=
  let len := Z.of_nat (length msg) in
  let zeros := Z.to_nat ((55 - len) mod 64) in
  let bits := 8 * len in
  msg ++ [128] ++ replicate zeros 0
      ++ bytes_of_word (Z.land bits mask32)
      ++ bytes_of_word (Z.land (Z.shiftr bits 32) mask32).

Definition sum (msg : list Z) : list Z :=
  let p := pad msg in
  let '(mkDigest a b c d) := blocks (length p / 64)%nat init p in
  bytes_of_word a ++ bytes_of_word b ++ bytes_of_word c ++ bytes_of_word d.

End MD5.

(** ** Strings, bytes and formatting *)

(** [[]byte(s)]: the bytes of a string, as numbers below 256. *)
Definition bytes (s : string) : list Z :=
  (fun a => Z.of_N (N_of_ascii a)) <$> list_ascii_of_string s.

Definition hexDigit (n : Z) : ascii :=
  ascii_of_N (Z.to_N (if n <? 10 then 48 + n else 55 + n)).

(** [fmt.Sprintf("%X", b)] on a byte slice: two upper-case digits a byte. *)
Definition sprintfX (bs : list Z) : string :=
  string_of_list_ascii
    (bs ≫= fun b => [hexDigit (b / 16); hexDigit (b mod 16)]).

(** [strconv.FormatInt(int64(n), 10)]. *)
Definition FormatInt (n : Z) : string :=
  NilZero.string_of_int (Z.to_int n).

(** [strings.Trim(s, " ")]: drop the leading and the trailing spaces. *)
Fixpoint trimLeft (cs : list ascii) : list ascii :=
  match cs with
  | c :: cs' => if Ascii.eqb c " "%char then trimLeft cs' else cs
  | [] => []
  end.

Definition Trim (s : string) : string :=
  string_of_list_ascii
    (rev (trimLeft (rev (trimLeft (list_ascii_of_string s))))).

(** ** Errors *)

Inductive num_err := ErrSyntax | ErrRange.

Inductive error :=
  | ErrParticipantsCSV
  | ErrPrizeNo
  | ErrWinnersExistBeforeDraw
  | ErrPrizeAmount
  | ErrNoAvailableParticipants
  | ErrNoOriginalWinnersBeforeRedraw
  | ErrRevokedWinnerNotMatch
  | ErrWinnersNotExistBeforeReDraw
  | ErrRedrawPrizeAmount
  | ErrChecksum
  | NumError (func num : string) (err : num_err) (* strconv.NumError *)
  | ReaderError (msg : string)  (* an error of the csv or json decoder *)
  | GoPanic.                    (* a run-time panic: index out of range,
                                   rand.Intn on a non-positive bound *)

#[global] Instance num_err_eq_dec : EqDecision num_err.
Proof. solve_decision. Defined.
#[global] Instance error_eq_dec : EqDecision error.
Proof. solve_decision. Defined.

(** What a reader yields once decoded. *)
Inductive read_result (A : Type) :=
  | ReadErr (e : error)
  | ReadOk (a : A).
Arguments ReadErr {A} e.
Arguments ReadOk {A} a.

(** ** strconv.Atoi *)

Definition isDigit (c : ascii) : bool :=
  let n := nat_of_ascii c in ((48 <=? n) && (n <=? 57))%nat.

Definition digitVal (c : ascii) : Z := Z.of_nat (nat_of_ascii c) - 48.

(** The digit loop of [strconv.ParseUint] for base 10 and 64 bits. *)
Fixpoint parseUintLoop (cs : list ascii) (n : Z) : num_err + Z :=
  match cs with
  | [] => inr n
  | c :: cs' =>
    if isDigit c then
      if n >=? 1844674407370955162 then inl ErrRange
      else
        let n1 := n * 10 + digitVal c in
        if n1 >? 18446744073709551615 then inl ErrRange
        else parseUintLoop cs' n1
    else inl ErrSyntax
  end.

Definition ParseInt (s : string) : num_err + Z :=
  match list_ascii_of_string s with
  | [] => inl ErrSyntax
  | c :: cs' =>
    let neg := Ascii.eqb c "-"%char in
    let ds := if neg || Ascii.eqb c "+"%char then cs' else c :: cs' in
    match ds with
    | [] => inl ErrSyntax
    | _ =>
      match parseUintLoop ds 0 with
      | inl e => inl e
      | inr un =>
        if negb neg && (un >=? 9223372036854775808) then inl ErrRange
        else if neg && (un >? 9223372036854775808) then inl ErrRange
        else inr (if neg then - un else un)
      end
    end
  end.

(** [strconv.Atoi]: its fast path for short strings computes what
    [ParseInt(s, 10, 0)] computes, so one definition serves both. *)
Definition Atoi (s : string) : error + Z :=
  match ParseInt s with
  | inl e => inl (NumError "Atoi" s e)
  | inr n => inr n
  end.

(** ** The data model *)

Record Participant := mkParticipant {
  ID : string;
  Name : string
}.

Record Prize := mkPrize {
  No : Z;
  PName : string;
  Amount : Z;
  Desc : string
}.

#[global] Instance Participant_eq_dec : EqDecision Participant.
Proof. solve_decision. Defined.
#[global] Instance Prize_eq_dec : EqDecision Prize.
Proof. solve_decision. Defined.

(** Zero values: what indexing a Go map yields for an absent key. *)
#[global] Instance Participant_inhabited : Inhabited Participant :=
  populate (mkParticipant "" "").
#[global] Instance Prize_inhabited : Inhabited Prize :=
  populate (mkPrize 0 "" 0 "").

(** The session ([Draw] in luckydraw.go, [Lottery] in its renamed copy;
    the second name leaves [Draw] to the method). *)
Record Lottery := mkLottery {
  name : string;
  prizes : gmap Z Prize;
  participants : gmap string Participant;
  winners : gmap Z (list Participant)
}.

(** A [nil] map is [None]: the JSON decoder leaves a missing or [null]
    field so. *)
Record SaveData := mkSaveData {
  sdName : string;
  sdPrizes : option (gmap Z Prize);
  sdParticipants : option (gmap string Participant);
  sdWinners : option (gmap Z (list Participant));
  sdLastUpdated : string;
  sdChecksum : string
}.

Definition New (nm : string) : Lottery := mkLottery nm ∅ ∅ ∅.

Definition with_prizes (d : Lottery) (m : gmap Z Prize) : Lottery :=
  mkLottery (name d) m (participants d) (winners d).

Definition with_participants (d : Lottery) (m : gmap string Participant)
  : Lottery :=
  mkLottery (name d) (prizes d) m (winners d).

Definition with_winners (d : Lottery) (m : gmap Z (list Participant))
  : Lottery :=
  mkLottery (name d) (prizes d) (participants d) m.

(** ** Iteration order of a map, and random numbers

    [mapOrder ord l] lists the elements of [l] in the order the choice
    sequence [ord] selects: each choice picks one of the elements not yet
    listed.  Every order is selected by some sequence
    ([mapOrder_complete]). *)

Fixpoint pickOrder {A} (n : nat) (ord : list nat) (l : list A) : list A :=
  match n with
  | O => []
  | S n' =>
    let i := (hd 0 ord mod length l)%nat in
    match l !! i with
    | Some x => x :: pickOrder n' (tl ord) (delete i l)
    | None => []
    end
  end.

Definition mapOrder {A} (ord : list nat) (l : list A) : list A :=
  pickOrder (length l) ord l.

(** [rand.Intn(n)] on the raw random number [raw]; it panics when
    [n <= 0]. *)
Definition Intn (raw : nat) (n : Z) : option Z :=
  if n <=? 0 then None else Some (Z.of_nat raw mod n).

(** ** Prizes and participants *)

Definition SetPrize (d : Lottery) (no : Z) (nm : string) (amount : Z)
    (desc : string) : Lottery :=
  let prize := mkPrize no nm amount desc in
  with_prizes d (<[no := prize]> (prizes d)).

Definition GetPrize (d : Lottery) (no : Z) : Prize := prizes d !!! no.

Fixpoint loadPrizeRows (rows : list (list string)) (m : gmap Z Prize)
  : gmap Z Prize * option error :=
  match rows with
  | [] => (m, None)
  | row :: rest =>
    match row with
    | [c0; c1; c2; c3] =>
      match Atoi (Trim c0) with
      | inl e => (m, Some e)
      | inr no =>
        match Atoi (Trim c2) with
        | inl e => (m, Some e)
        | inr amount =>
          loadPrizeRows rest (<[no := mkPrize no c1 amount c3]> m)
        end
      end
    | _ => (m, Some ErrParticipantsCSV)
    end
  end.

Definition LoadPrizesCSV (d : Lottery) (r : read_result (list (list string)))
  : Lottery * option error :=
  match r with
  | ReadErr e => (d, Some e)
  | ReadOk rows =>
    let '(m, err) := loadPrizeRows (drop 1 rows) ∅ in
    (with_prizes d m, err)
  end.

Definition prizeMapToSlice (m : gmap Z Prize) (descOrder : bool)
  : list Prize :=
  let s := fst <$> map_to_list m in
  let s := if descOrder then merge_sort Z.ge s else merge_sort Z.le s in
  (fun prizeNo => m !!! prizeNo) <$> s.

Definition Prizes (d : Lottery) (descOrder : bool) : list Prize :=
  prizeMapToSlice (prizes d) descOrder.

Fixpoint loadParticipantRows (rows : list (list string))
    (m : gmap string Participant)
  : gmap string Participant * option error :=
  match rows with
  | [] => (m, None)
  | row :: rest =>
    match row with
    | [id; nm] => loadParticipantRows rest (<[id := mkParticipant id nm]> m)
    | _ => (m, Some ErrParticipantsCSV)
    end
  end.

Definition LoadParticipantsCSV (d : Lottery)
    (r : read_result (list (list string))) : Lottery * option error :=
  match r with
  | ReadErr e => (d, Some e)
  | ReadOk rows =>
    let '(m, err) := loadParticipantRows (drop 1 rows) ∅ in
    (with_participants d m, err)
  end.

Definition participantMapToSlice (ord : list nat)
    (m : gmap string Participant) : list Participant :=
  mapOrder ord (snd <$> map_to_list m).

Definition participantSliceToMap (s : list Participant)
  : gmap string Participant :=
  foldl (fun m p => <[ID p := p]> m) ∅ s.

Definition Participants (ord : list nat) (d : Lottery) : list Participant :=
  participantMapToSlice ord (participants d).

Definition copyParticipantMap (m : gmap string Participant)
  : gmap string Participant :=
  map_fold (fun k v copiedMap => <[k := v]> copiedMap) ∅ m.

(** ** Availability

    The nested loops delete the id of every winner of every prize; deletes
    commute, so the order in which [d.winners] is ranged over cannot show
    in the result and the fold takes the map in its canonical order.  The
    argument [prizeNo] is not used by the body, as in the source. *)

Definition removeWinners (ws : gmap Z (list Participant))
    (m : gmap string Participant) : gmap string Participant :=
  map_fold (fun _ winners acc =>
              foldl (fun acc winner => delete (ID winner) acc) acc winners)
           m ws.

Definition availableParticipants (ord : list nat) (d : Lottery) (prizeNo : Z)
  : list Participant :=
  let participants := copyParticipantMap (participants d) in
  let participants := removeWinners (winners d) participants in
  participantMapToSlice ord participants.

Definition AvailableParticipants (ord : list nat) (d : Lottery) (prizeNo : Z)
  : list Participant :=
  availableParticipants ord d prizeNo.

Definition Winners (d : Lottery) (prizeNo : Z) : list Participant :=
  match winners d !! prizeNo with
  | None => []
  | Some _ => winners d !!! prizeNo
  end.

(** ** Sampling *)

Definition removeParticipant (s : list Participant) (i : Z)
  : list Participant :=
  let l := Z.of_nat (length s) in
  if l <=? 0 then s
  else if (i <? 0) || (i >? l - 1) then s
  else
    match s !! Z.to_nat (l - 1) with
    | Some x => take (Z.to_nat (l - 1)) (<[Z.to_nat i := x]> s)
    | None => s
    end.

(** The loop of [draw]; [None] is a panic of [rand.Intn] or of the
    indexing, which [draw_no_panic] excludes. *)
Fixpoint drawLoop (n : nat) (rnd : list nat)
    (participants winners : list Participant) : option (list Participant) :=
  match n with
  | O => Some winners
  | S n' =>
    index ← Intn (hd 0%nat rnd) (Z.of_nat (length participants));
    p ← participants !! Z.to_nat index;
    drawLoop n' (tl rnd) (removeParticipant participants index)
             (winners ++ [p])
  end.

Definition draw (rnd : list nat) (prizeAmount : Z)
    (participants : list Participant) : option (list Participant) :=
  let len := Z.of_nat (length participants) in
  if (prizeAmount <=? 0) || (len <=? 0) then Some []
  else
    let amount := if len <? prizeAmount then len else prizeAmount in
    drawLoop (Z.to_nat amount) rnd participants [].

(** ** Draw, Revoke, Redraw *)

Definition Draw (ord rnd : list nat) (d : Lottery) (prizeNo : Z)
  : Lottery * (list Participant * option error) :=
  match prizes d !! prizeNo with
  | None => (d, ([], Some ErrPrizeNo))
  | Some _ =>
    let amount := Amount (prizes d !!! prizeNo) in
    if amount <? 1 then (d, ([], Some ErrPrizeAmount))
    else
      match winners d !! prizeNo with
      | Some _ => (d, ([], Some ErrWinnersExistBeforeDraw))
      | None =>
        let participants := availableParticipants ord d prizeNo in
        if decide (length participants = 0%nat)
        then (d, ([], Some ErrNoAvailableParticipants))
        else
          match draw rnd amount participants with
          | None => (d, ([], Some GoPanic))
          | Some ws =>
            (with_winners d (<[prizeNo := ws]> (winners d)), (ws, None))
          end
      end
  end.

(** The loop of [Revoke] over the revoked winners, on the temporary map. *)
Fixpoint revokeLoop (revokedWinners : list Participant)
    (originalWinnerMap : gmap string Participant)
  : option (gmap string Participant) :=
  match revokedWinners with
  | [] => Some originalWinnerMap
  | revokedWinner :: rest =>
    match originalWinnerMap !! ID revokedWinner with
    | None => None
    | Some _ => revokeLoop rest (delete (ID revokedWinner) originalWinnerMap)
    end
  end.

Definition Revoke (ord : list nat) (d : Lottery) (prizeNo : Z)
    (revokedWinners : list Participant) : Lottery * option error :=
  match prizes d !! prizeNo with
  | None => (d, Some ErrPrizeNo)
  | Some _ =>
    let amount := Amount (prizes d !!! prizeNo) in
    if amount <? 1 then (d, Some ErrPrizeAmount)
    else
      match winners d !! prizeNo with
      | None => (d, Some ErrNoOriginalWinnersBeforeRedraw)
      | Some _ =>
        let originalWinnerMap :=
          participantSliceToMap (winners d !!! prizeNo) in
        match revokeLoop revokedWinners originalWinnerMap with
        | None => (d, Some ErrRevokedWinnerNotMatch)
        | Some m =>
          (with_winners d
             (<[prizeNo := participantMapToSlice ord m]> (winners d)), None)
        end
      end
  end.

Definition Redraw (ord rnd : list nat) (d : Lottery) (prizeNo : Z)
    (amount : Z) : Lottery * (list Participant * option error) :=
  match prizes d !! prizeNo with
  | None => (d, ([], Some ErrPrizeNo))
  | Some _ =>
    if Amount (prizes d !!! prizeNo) <? 1
    then (d, ([], Some ErrPrizeAmount))
    else
      match winners d !! prizeNo with
      | None => (d, ([], Some ErrWinnersNotExistBeforeReDraw))
      | Some _ =>
        if amount >? Amount (prizes d !!! prizeNo)
                     - Z.of_nat (length (winners d !!! prizeNo))
        then (d, ([], Some ErrRedrawPrizeAmount))
        else
          let participants := availableParticipants ord d prizeNo in
          if decide (length participants = 0%nat)
          then (d, ([], Some ErrNoAvailableParticipants))
          else
            match draw rnd amount participants with
            | None => (d, ([], Some GoPanic))
            | Some ws =>
              (with_winners d
                 (<[prizeNo := (winners d !!! prizeNo) ++ ws]> (winners d)),
               (ws, None))
            end
      end
  end.

Definition AllWinners (d : Lottery) : gmap Z (list Participant) := winners d.

Definition ClearWinners (d : Lottery) (prizeNo : Z) : Lottery :=
  with_winners d (<[prizeNo := []]> (winners d)).

Definition ClearAllWinners (d : Lottery) : Lottery := with_winners d ∅.

(** ** Persistence *)

(** The running hash: [h.Write] appends to what was fed so far, [h.Sum]
    digests it. *)
Definition hWrite (h : list Z) (p : list Z) : list Z := h ++ p.
Definition hSum (h : list Z) : list Z := MD5.sum h.

Definition feedWinners (winners : gmap Z (list Participant)) (h : list Z)
    (arr : list Z) : list Z :=
  foldl (fun h prizeNo =>
           let s := FormatInt prizeNo in
           let h := hWrite h (bytes s) in
           foldl (fun h winner =>
                    hWrite (hWrite h (bytes (ID winner))) (bytes (Name winner)))
                 h (winners !!! prizeNo))
        h arr.

Definition computeWinnersHash (winners : gmap Z (list Participant))
  : list Z :=
  let arr := fst <$> map_to_list winners in
  let arr := merge_sort Z.le arr in
  hSum (feedWinners winners [] arr).

(** [time.Now()], as the fields [Save] prints. *)
Record Time := mkTime {
  Year : Z; Month : Z; Day : Z; Hour : Z; Minute : Z; Second : Z
}.

(** [%0wd] of [fmt.Sprintf]. *)
Definition padInt (w : nat) (n : Z) : string :=
  let digits := FormatInt (Z.abs n) in
  let sign := if n <? 0 then "-"%string else ""%string in
  let fill := (w - String.length sign - String.length digits)%nat in
  (sign +:+ string_of_list_ascii (replicate fill "0"%char) +:+ digits)%string.

Definition formatTime (tm : Time) : string :=
  (padInt 4 (Year tm) +:+ "-" +:+ padInt 2 (Month tm) +:+ "-"
   +:+ padInt 2 (Day tm) +:+ " " +:+ padInt 2 (Hour tm) +:+ ":"
   +:+ padInt 2 (Minute tm) +:+ ":" +:+ padInt 2 (Second tm))%string.

(** [Save] up to the JSON encoding: the record handed to the encoder. *)
Definition Save (d : Lottery) (tm : Time) : SaveData :=
  mkSaveData (name d) (Some (prizes d)) (Some (participants d))
             (Some (winners d)) (formatTime tm)
             (sprintfX (computeWinnersHash (winners d))).

(** [Load] from the JSON decoding: ranging over a [nil] map ranges over
    nothing, so the checksum of a missing [winners] is that of the empty
    map. *)
Definition Load (d : Lottery) (r : read_result SaveData)
  : Lottery * option error :=
  match r with
  | ReadErr e => (d, Some e)
  | ReadOk data =>
    let checksum := computeWinnersHash (default ∅ (sdWinners data)) in
    if decide (sprintfX checksum ≠ sdChecksum data)
    then (d, Some ErrChecksum)
    else
      (mkLottery (name d)
                 (default ∅ (sdPrizes data))
                 (default ∅ (sdParticipants data))
                 (default ∅ (sdWinners data)), None)
  end.

(** ** Sessions: sequences of public operations *)

Inductive op :=
  | OpSetPrize (no : Z) (nm : string) (amount : Z) (desc : string)
  | OpLoadPrizesCSV (r : read_result (list (list string)))
  | OpLoadParticipantsCSV (r : read_result (list (list string)))
  | OpDraw (ord rnd : list nat) (prizeNo : Z)
  | OpRevoke (ord : list nat) (prizeNo : Z) (revoked : list Participant)
  | OpRedraw (ord rnd : list nat) (prizeNo : Z) (amount : Z)
  | OpClearWinners (prizeNo : Z)
  | OpClearAllWinners
  | OpLoad (r : read_result SaveData).

Definition step (d : Lottery) (o : op) : Lottery :=
  match o with
  | OpSetPrize no nm amount desc => SetPrize d no nm amount desc
  | OpLoadPrizesCSV r => fst (LoadPrizesCSV d r)
  | OpLoadParticipantsCSV r => fst (LoadParticipantsCSV d r)
  | OpDraw ord rnd prizeNo => fst (Draw ord rnd d prizeNo)
  | OpRevoke ord prizeNo revoked => fst (Revoke ord d prizeNo revoked)
  | OpRedraw ord rnd prizeNo amount => fst (Redraw ord rnd d prizeNo amount)
  | OpClearWinners prizeNo => ClearWinners d prizeNo
  | OpClearAllWinners => ClearAllWinners d
  | OpLoad r => fst (Load d r)
  end.

Definition run (d : Lottery) (ops : list op) : Lottery := foldl step d ops.

(** The states a fresh session can reach. *)
Inductive reachable : Lottery -> Prop :=
  | reachable_New nm : reachable (New nm)
  | reachable_step d o : reachable d -> reachable (step d o).

(** ** The winner invariant, as the specification words it *)

(** Each id at most once within a prize's winner sequence, and in at most
    one prize's sequence. *)
Definition winnersDisjoint (ws : gmap Z (list Participant)) : Prop :=
  (∀ p l, ws !! p = Some l → NoDup (ID <$> l)) ∧
  (∀ p1 p2 l1 l2 x y,
     p1 ≠ p2 → ws !! p1 = Some l1 → ws !! p2 = Some l2 →
     x ∈ l1 → y ∈ l2 → ID x ≠ ID y).

(** Every participant is registered under its own id. *)
Definition keyedByID (m : gmap string Participant) : Prop :=
  map_Forall (λ k p, ID p = k) m.

(** The ids of all current winners. *)
Definition winnerIDs (ws : gmap Z (list Participant)) : list string :=
  ID <$> (map_to_list ws ≫= snd).


(** The guards that [Revoke] and [Redraw] share passed: the prize is
    registered with an amount of at least 1 and has a winner entry. *)
Definition drawnPrize (d : Lottery) (prizeNo : Z) (ws : list Participant)
  : Prop :=
  (∃ pz, prizes d !! prizeNo = Some pz ∧ 1 ≤ Amount pz) ∧
  winners d !! prizeNo = Some ws.

(** ** Rows of a prizes file, as the specification words them *)

(** The prize a well-formed row stands for. *)
Definition rowPrize (row : list string) : option Prize :=
  match row with
  | [c0; c1; c2; c3] =>
    match Atoi (Trim c0), Atoi (Trim c2) with
    | inr no, inr amount => Some (mkPrize no c1 amount c3)
    | _, _ => None
    end
  | _ => None
  end.

(** The map that holds the given prizes, later ones overwriting earlier
    ones of the same number. *)
Definition insertPrizes (ps : list Prize) : gmap Z Prize :=
  foldl (fun m p => <[No p := p]> m) ∅ ps.

(** The characters of a numeral after its sign, if it has one. *)
Definition numeral (s : string) : list ascii :=
  match list_ascii_of_string s with
  | [] => []
  | c :: cs' =>
    if Ascii.eqb c "-"%char || Ascii.eqb c "+"%char then cs' else c :: cs'
  end.

(** ** The checksum, as the specification words it

    For each prize number in ascending order: the decimal prize number,
    then, for each winner in sequence order, its id, then its name. *)

Definition winnerBytes (w : Participant) : list Z :=
  bytes (ID w) ++ bytes (Name w).

Definition prizeBytes (winners : gmap Z (list Participant)) (prizeNo : Z)
  : list Z :=
  bytes (FormatInt prizeNo) ++ concat (winnerBytes <$> (winners !!! prizeNo)).

Definition winnersStream (winners : gmap Z (list Participant)) : list Z :=
  concat (prizeBytes winners <$> merge_sort Z.le (fst <$> map_to_list winners)).

(** A saved record whose winners field was modified; the stored checksum
    is left as it was. *)
Definition withWinners (data : SaveData) (w : gmap Z (list Participant))
  : SaveData :=
  mkSaveData (sdName data) (sdPrizes data) (sdParticipants data) (Some w)
             (sdLastUpdated data) (sdChecksum data).

(** The invariant of a well-formed session. *)
Definition Inv (d : Lottery) : Prop :=
  keyedByID (participants d) ∧ winnersDisjoint (winners d).

(** A record whose maps a well-formed session could have saved. *)
Definition wfRecord (data : SaveData) : Prop :=
  keyedByID (default ∅ (sdParticipants data)) ∧
  winnersDisjoint (default ∅ (sdWinners data)).

(** Operations that load, if anything, such a record. *)
Definition wfOp (o : op) : Prop :=
  match o with
  | OpLoad (ReadOk data) => wfRecord data
  | _ => True
  end.

(** ** A small session, for examples *)

Definition demo_A : Participant := mkParticipant "a" "Ann".
Definition demo_B : Participant := mkParticipant "b" "Bob".
Definition demo_C : Participant := mkParticipant "c" "Cy".
Definition demo_D : Participant := mkParticipant "d" "Dee".

Definition demo_rows : read_result (list (list string)) :=
  ReadOk [ ["id"; "name"]; ["a"; "Ann"]; ["b"; "Bob"]; ["c"; "Cy"] ]%string.

(** Three participants and a first prize with two slots, nothing drawn. *)
Definition demo_d1 : Lottery :=
  run (New "demo") [OpLoadParticipantsCSV demo_rows; OpSetPrize 1 "first" 2 ""].

(** The first prize drawn: Bob, then Ann. *)
Definition demo_d2 : Lottery := step demo_d1 (OpDraw [] [2; 1]%nat 1).

Definition demo_rows4 : read_result (list (list string)) :=
  ReadOk [ ["id"; "name"]; ["a"; "Ann"]; ["b"; "Bob"]; ["c"; "Cy"];
           ["d"; "Dee"] ]%string.

(** A prize of three slots drawn in full (Cy, Dee, Bob), then set to one
    slot; Ann has won nothing. *)
Definition demo_shrunk : Lottery :=
  run (New "demo")
      [ OpLoadParticipantsCSV demo_rows4; OpSetPrize 1 "first" 3 "";
        OpDraw [] [0; 0; 0]%nat 1; OpSetPrize 1 "first" 1 "" ].

(** A prize of three slots drawn in full, in the order Ann, Bob, Cy. *)
Definition demo_abc : Lottery :=
  run (New "demo")
      [ OpLoadParticipantsCSV demo_rows; OpSetPrize 1 "first" 3 "";
        OpDraw [] [1; 1; 0]%nat 1 ].

(** A record in which Ann wins both prizes, with the checksum of its
    winners (the MD5 of [1aAnn2aAnn]). *)
Definition demo_double : SaveData :=
  mkSaveData "demo" None None
    (Some (<[1 := [demo_A]]> (<[2 := [demo_A]]> ∅)))
    "2024-03-05 07:08:09" "79A028CC90A420AA8E76AF1C9D801567".

Definition demo_time : Time := mkTime 2024 3 5 7 8 9.

(** A session whose only winner has the id [ab] and the name [c], its
    saved record, and the record with the [b] moved from the id to the
    name. *)
Definition demo_split : Lottery :=
  run (New "demo")
      [ OpLoadParticipantsCSV (ReadOk [ ["id"; "name"]; ["ab"; "c"] ]%string);
        OpSetPrize 1 "first" 1 ""; OpDraw [] [] 1 ].

Definition demo_saved : SaveData := Save demo_split demo_time.

Definition demo_moved : SaveData :=
  withWinners demo_saved (<[1 := [mkParticipant "a" "bc"]]> ∅).

(** [demo_double] with a checksum that is not that of its winners. *)
Definition demo_corrupt : SaveData :=
  mkSaveData "demo" None None (sdWinners demo_double) "2024-03-05 07:08:09"
             "00000000000000000000000000000000".

(** A prizes file whose second data row has a non-numeric amount. *)
Definition demo_prize_rows : list (list string) :=
  [ ["no"; "name"; "amount"; "desc"]; [" 7"; "x"; "2 "; "d"];
    ["8"; "y"; "z"; "d"]; ["9"; "y"; "3"; "d"] ]%string.

(** A prizes file whose rows have three fields. *)
Definition demo_short_rows : list (list string) :=
  [ ["no"; "name"; "amount"]; ["7"; "x"; "2"]; ["8"; "y"; "3"] ]%string.

(** ** Further notions the properties use *)

(** Every prize is registered under its own number. *)
Definition keyedByNo (m : gmap Z Prize) : Prop :=
  map_Forall (λ k p, No p = k) m.

(** Operations other than [Load]. *)
Definition noLoad (o : op) : bool :=
  match o with
  | OpLoad _ => false
  | _ => true
  end.

(** A run of [n] spaces. *)
Definition spaces (n : nat) : string :=
  string_of_list_ascii (replicate n " "%char).

(** The digits of [%X]. *)
Definition isUpperHex (c : ascii) : bool :=
  let n := nat_of_ascii c in
  (((48 <=? n) && (n <=? 57)) || ((65 <=? n) && (n <=? 70)))%nat.

(** * Properties *)

(** ** Sanity checks of the embedded library functions *)

Example md5_empty :
  sprintfX (MD5.sum (bytes "")) = "D41D8CD98F00B204E9800998ECF8427E"%string.
Proof. vm_compute. reflexivity. Qed.

Example md5_abc :
  sprintfX (MD5.sum (bytes "abc")) = "900150983CD24FB0D6963F7D28E17F72"%string.
Proof. vm_compute. reflexivity. Qed.

Example md5_two_blocks :
  sprintfX (MD5.sum (bytes
    "aaaaaaaaaaaaaaaaaaaaaaaaaaaaaaaaaaaaaaaaaaaaaaaaaaaaaaaaaaaaaaaaaaaaaa"))
  = "0F5C6C4E740BFCC08C3C26CCB2673D46"%string.
Proof. vm_compute. reflexivity. Qed.

Example FormatInt_neg : FormatInt (-120) = "-120"%string.
Proof. reflexivity. Qed.

Example Atoi_ok : Atoi (Trim "  -42 ") = inr (-42).
Proof. reflexivity. Qed.

Example Atoi_bad : Atoi (Trim " 4x ") = inl (NumError "Atoi" "4x" ErrSyntax).
Proof. reflexivity. Qed.

Example Atoi_range :
  Atoi "9223372036854775808"
  = inl (NumError "Atoi" "9223372036854775808" ErrRange).
Proof. reflexivity. Qed.


(** ** Iteration order *)

Section MapOrder.
Context {A : Type}.
Implicit Types (l : list A) (ord : list nat).

Lemma pickOrder_perm n ord l : n = length l → pickOrder n ord l ≡ₚ l.
Proof.
  revert ord l. induction n as [|n IH]; intros ord l Hn.
  - destruct l; [done | discriminate].
  - simpl. set (i := (hd 0%nat ord mod length l)%nat).
    assert (Hi : (i < length l)%nat).
    { apply Nat.mod_upper_bound. rewrite <- Hn. done. }
    destruct (lookup_lt_is_Some_2 l i Hi) as [x Hx]. rewrite Hx.
    rewrite IH.
    + symmetry. by apply delete_Permutation.
    + rewrite length_delete by eauto. lia.
Qed.

Lemma mapOrder_perm ord l : mapOrder ord l ≡ₚ l.
Proof. by apply pickOrder_perm. Qed.

Lemma mapOrder_length ord l : length (mapOrder ord l) = length l.
Proof. by rewrite mapOrder_perm. Qed.

(** The model leaves no order out. *)
Lemma mapOrder_complete l l' : l' ≡ₚ l → ∃ ord, mapOrder ord l = l'.
Proof.
  revert l. induction l' as [|x l' IH]; intros l Hp.
  - apply Permutation_nil in Hp as ->. by exists [].
  - assert (Hx : x ∈ l) by (rewrite <- Hp; left).
    apply list_elem_of_lookup in Hx as [i Hi].
    assert (Hlt : (i < length l)%nat) by (by eapply lookup_lt_Some).
    assert (Hd : l' ≡ₚ delete i l).
    { apply (Permutation_cons_inv (a := x)).
      rewrite Hp. by apply delete_Permutation. }
    destruct (IH _ Hd) as [ord Hord].
    exists (i :: ord). unfold mapOrder in *.
    assert (Hlen : length l = S (length (delete i l))).
    { rewrite length_delete by eauto. lia. }
    rewrite Hlen at 1. simpl.
    rewrite Nat.mod_small by done. rewrite Hi. by rewrite Hord.
Qed.

End MapOrder.

(** ** Maps and slices of participants *)

Lemma copyParticipantMap_id m : copyParticipantMap m = m.
Proof.
  unfold copyParticipantMap. rewrite map_fold_foldr.
  rewrite <- (list_to_map_to_list m) at 2.
  induction (map_to_list m) as [|[k v] l IH]; [done|].
  simpl. by rewrite IH.
Qed.

Lemma participantMapToSlice_perm ord m :
  participantMapToSlice ord m ≡ₚ snd <$> map_to_list m.
Proof. apply mapOrder_perm. Qed.

Lemma elem_of_participantMapToSlice ord m p :
  p ∈ participantMapToSlice ord m ↔ ∃ k, m !! k = Some p.
Proof.
  rewrite participantMapToSlice_perm, list_elem_of_fmap. split.
  - intros [[k q] [-> Hq]]. exists k. by apply elem_of_map_to_list.
  - intros [k Hk]. exists (k, p). split; [done|].
    by apply elem_of_map_to_list.
Qed.

(** In a map keyed by id the listed participants have distinct ids. *)
Lemma participantMapToSlice_NoDup ord m :
  keyedByID m → NoDup (ID <$> participantMapToSlice ord m).
Proof.
  intros Hk. rewrite participantMapToSlice_perm.
  assert (Heq : ID <$> (snd <$> map_to_list m) = fst <$> map_to_list m).
  { rewrite <- list_fmap_compose. apply list_fmap_ext.
    intros i [k p] Hi. simpl. apply Hk. apply elem_of_map_to_list.
    apply list_elem_of_lookup. eauto. }
  rewrite Heq. apply NoDup_fst_map_to_list.
Qed.

Lemma participantSliceToMap_snoc s p :
  participantSliceToMap (s ++ [p]) = <[ID p := p]> (participantSliceToMap s).
Proof. unfold participantSliceToMap. by rewrite foldl_app. Qed.

Lemma participantSliceToMap_keyed s : keyedByID (participantSliceToMap s).
Proof.
  induction s as [|p s IH] using rev_ind; intros k q.
  - unfold participantSliceToMap. simpl. by rewrite lookup_empty.
  - rewrite participantSliceToMap_snoc, lookup_insert.
    case_decide; [naive_solver | apply IH].
Qed.

Lemma participantSliceToMap_elem s k q :
  participantSliceToMap s !! k = Some q → q ∈ s.
Proof.
  induction s as [|p s IH] using rev_ind.
  - unfold participantSliceToMap. simpl. by rewrite lookup_empty.
  - rewrite participantSliceToMap_snoc, lookup_insert.
    case_decide; intros Hq; set_solver.
Qed.

Lemma participantSliceToMap_is_Some s k :
  is_Some (participantSliceToMap s !! k) ↔ k ∈ ID <$> s.
Proof.
  induction s as [|p s IH] using rev_ind.
  - unfold participantSliceToMap. simpl. rewrite lookup_empty.
    split; [by intros [? ?] | intros H; by apply elem_of_nil in H].
  - rewrite participantSliceToMap_snoc, lookup_insert, fmap_app.
    rewrite elem_of_app. simpl. rewrite list_elem_of_singleton.
    case_decide as Heq.
    + split; [intros _; by right | intros _; eauto].
    + rewrite IH. split; [by left | by intros [? | ?]].
Qed.

(** Without repeated ids, the map holds each participant of the slice. *)
Lemma participantSliceToMap_lookup s p :
  NoDup (ID <$> s) → p ∈ s → participantSliceToMap s !! ID p = Some p.
Proof.
  induction s as [|q s IH] using rev_ind; intros Hnd Hp.
  - by apply elem_of_nil in Hp.
  - rewrite fmap_app in Hnd. apply NoDup_app in Hnd as (Hnd & Hdis & _).
    rewrite participantSliceToMap_snoc, lookup_insert.
    apply elem_of_app in Hp as [Hp | Hp%list_elem_of_singleton].
    + case_decide as Heq; [|by apply IH].
      exfalso. apply (Hdis (ID p)); [by apply list_elem_of_fmap_2|].
      rewrite <- Heq. simpl. left.
    + subst. by case_decide.
Qed.

(** ** Availability *)

Lemma elem_of_winnerIDs ws k :
  k ∈ winnerIDs ws ↔ ∃ p l w, ws !! p = Some l ∧ w ∈ l ∧ ID w = k.
Proof.
  unfold winnerIDs. rewrite list_elem_of_fmap. split.
  - intros [w [-> Hw]]. apply list_elem_of_bind in Hw as [[p l] [Hw Hpl]].
    apply elem_of_map_to_list in Hpl. by exists p, l, w.
  - intros (p & l & w & Hpl & Hw & <-). exists w. split; [done|].
    apply list_elem_of_bind. exists (p, l). split; [done|].
    by apply elem_of_map_to_list.
Qed.

Lemma deleteWinners_lookup (l : list Participant)
    (m : gmap string Participant) k :
  foldl (fun acc winner => delete (ID winner) acc) m l !! k
  = if decide (k ∈ ID <$> l) then None else m !! k.
Proof.
  revert m. induction l as [|w l IH]; intros m.
  - destruct (decide _) as [H|H]; [by apply elem_of_nil in H | done].
  - cbn [foldl]. rewrite IH, lookup_delete, fmap_cons.
    repeat destruct (decide _); try done; set_solver.
Qed.

Lemma removeWinners_lookup ws m k :
  removeWinners ws m !! k
  = if decide (k ∈ winnerIDs ws) then None else m !! k.
Proof.
  unfold removeWinners, winnerIDs. rewrite map_fold_foldr.
  induction (map_to_list ws) as [|[p l] L IH].
  - destruct (decide _) as [H|H]; [by apply elem_of_nil in H | done].
  - cbn [foldr uncurry]. rewrite deleteWinners_lookup, IH, bind_cons, fmap_app.
    cbn [snd]. repeat destruct (decide _); try done; set_solver.
Qed.

Lemma removeWinners_filter ws m :
  removeWinners ws m = filter (λ kp, kp.1 ∉ winnerIDs ws) m.
Proof.
  apply map_eq. intros k. rewrite removeWinners_lookup, map_lookup_filter.
  destruct (m !! k) as [p|] eqn:Hk; simpl.
  - case_decide; [by rewrite option_guard_False by (simpl; auto)
                 | by rewrite option_guard_True].
  - by case_decide.
Qed.

Lemma elem_of_availableParticipants ord d prizeNo x :
  x ∈ availableParticipants ord d prizeNo ↔
  ∃ k, participants d !! k = Some x ∧ k ∉ winnerIDs (winners d).
Proof.
  unfold availableParticipants.
  rewrite elem_of_participantMapToSlice, copyParticipantMap_id.
  split; intros [k Hk]; exists k; rewrite removeWinners_lookup in *;
    case_decide; naive_solver.
Qed.

Lemma availableParticipants_perm ord d prizeNo :
  availableParticipants ord d prizeNo
  ≡ₚ snd <$> map_to_list
       (filter (λ kp, kp.1 ∉ winnerIDs (winners d)) (participants d)).
Proof.
  unfold availableParticipants.
  by rewrite participantMapToSlice_perm, copyParticipantMap_id,
    removeWinners_filter.
Qed.

Lemma availableParticipants_NoDup ord d prizeNo :
  keyedByID (participants d) →
  NoDup (ID <$> availableParticipants ord d prizeNo).
Proof.
  intros Hk. apply participantMapToSlice_NoDup.
  rewrite copyParticipantMap_id. intros k p.
  rewrite removeWinners_lookup. case_decide; [done | apply Hk].
Qed.

(** ** Sampling without replacement *)

(** Removing the element at an index in range leaves the others, in some
    order: the last element takes the place of the removed one. *)
Lemma removeParticipant_perm s i p :
  s !! i = Some p → p :: removeParticipant s (Z.of_nat i) ≡ₚ s.
Proof.
  intros Hi. unfold removeParticipant.
  assert (Hlt : (i < length s)%nat) by (by eapply lookup_lt_Some).
  destruct (Z.leb_spec (Z.of_nat (length s)) 0) as [|_]; [lia|].
  destruct (Z.ltb_spec (Z.of_nat i) 0) as [|_]; [lia|].
  destruct (Z.gtb_spec (Z.of_nat i) (Z.of_nat (length s) - 1)) as [|_]; [lia|].
  cbn [orb]. rewrite Nat2Z.id.
  replace (Z.to_nat (Z.of_nat (length s) - 1)) with (pred (length s)) by lia.
  destruct (s !! pred (length s)) as [x|] eqn:Hx.
  2:{ apply lookup_ge_None in Hx. lia. }
  destruct (decide (i = pred (length s))) as [->|Hne].
  - rewrite list_insert_id by done.
    assert (x = p) as -> by congruence.
    rewrite <- (take_drop (pred (length s)) s) at 3.
    rewrite (drop_S s p (pred (length s))) by done.
    rewrite drop_ge by lia. by rewrite Permutation_app_comm.
  - rewrite take_insert_lt by lia.
    rewrite <- (take_drop (pred (length s)) s) at 3.
    rewrite (drop_S s x (pred (length s))) by done.
    rewrite drop_ge by lia.
    assert (Hp : take (pred (length s)) s !! i = Some p).
    { rewrite lookup_take_lt by lia. done. }
    rewrite (insert_take_drop _ i x)
      by (rewrite length_take; lia).
    rewrite <- (take_drop_middle _ i p Hp) at 3.
    rewrite <- !app_assoc. simpl.
    rewrite <- (Permutation_middle _ _ p).
    apply perm_skip, Permutation_app_head, Permutation_cons_append.
Qed.

Lemma removeParticipant_length s i p :
  s !! i = Some p → S (length (removeParticipant s (Z.of_nat i))) = length s.
Proof.
  intros Hi. by rewrite <- (removeParticipant_perm s i p Hi) at 2.
Qed.

Lemma Intn_range raw n : 0 < n → ∃ i, Intn raw n = Some (Z.of_nat i) ∧ (Z.of_nat i < n).
Proof.
  intros Hn. unfold Intn.
  destruct (Z.leb_spec n 0) as [|_]; [lia|].
  exists (Z.to_nat (Z.of_nat raw mod n)).
  pose proof (Z.mod_pos_bound (Z.of_nat raw) n Hn).
  rewrite Z2Nat.id by lia. split; [done | lia].
Qed.

(** The loop never panics while enough candidates remain, and it moves
    [n] of them, each once, to the end of the winners. *)
Lemma drawLoop_spec n rnd ps ws :
  (n ≤ length ps)%nat →
  ∃ picked rest,
    drawLoop n rnd ps ws = Some (ws ++ picked) ∧
    length picked = n ∧ picked ++ rest ≡ₚ ps.
Proof.
  revert rnd ps ws. induction n as [|n IH]; intros rnd ps ws Hn.
  - exists [], ps. by rewrite app_nil_r.
  - cbn [drawLoop].
    destruct (Intn_range (hd 0%nat rnd) (Z.of_nat (length ps)))
      as (i & -> & Hi); [lia|].
    cbn [mbind option_bind]. rewrite Nat2Z.id.
    destruct (lookup_lt_is_Some_2 ps i) as [p Hp]; [lia|].
    rewrite Hp. cbn [mbind option_bind].
    pose proof (removeParticipant_length ps i p Hp) as Hlen.
    destruct (IH (tl rnd) (removeParticipant ps (Z.of_nat i)) (ws ++ [p]))
      as (picked & rest & -> & Hpl & Hperm); [lia|].
    exists (p :: picked), rest. rewrite <- app_assoc. split_and!.
    + done.
    + simpl. by rewrite Hpl.
    + simpl. rewrite Hperm. by apply removeParticipant_perm.
Qed.

(** [draw] returns: it never panics; it yields [min(amount, n)] of the [n]
    candidates (none for a non-positive amount), each at most as often as
    the candidates list it. *)
Lemma draw_spec rnd prizeAmount ps :
  ∃ ws, draw rnd prizeAmount ps = Some ws ∧
        length ws = Z.to_nat (Z.min prizeAmount (Z.of_nat (length ps))) ∧
        ws ⊆+ ps.
Proof.
  unfold draw.
  destruct (Z.leb_spec prizeAmount 0) as [Ha|Ha]; cbn [orb].
  { exists []. split_and!; [done | simpl; lia | apply submseteq_nil_l]. }
  destruct (Z.leb_spec (Z.of_nat (length ps)) 0) as [Hl|Hl].
  { exists []. split_and!; [done | simpl; lia | apply submseteq_nil_l]. }
  set (amount := if Z.of_nat (length ps) <? prizeAmount
                 then Z.of_nat (length ps) else prizeAmount).
  assert (Hamt : amount = Z.min prizeAmount (Z.of_nat (length ps))).
  { unfold amount. destruct (Z.ltb_spec (Z.of_nat (length ps)) prizeAmount); lia. }
  destruct (drawLoop_spec (Z.to_nat amount) rnd ps [])
    as (picked & rest & Hd & Hlen & Hperm); [lia|].
  exists picked. split_and!.
  - done.
  - by rewrite Hlen, Hamt.
  - rewrite <- Hperm. by apply submseteq_inserts_r.
Qed.

Lemma draw_no_panic rnd prizeAmount ps : is_Some (draw rnd prizeAmount ps).
Proof. destruct (draw_spec rnd prizeAmount ps) as (ws & -> & _). eauto. Qed.

(** ** Helper facts on sub-multisets *)

Lemma NoDup_of_submseteq {A} (l k : list A) : l ⊆+ k → NoDup k → NoDup l.
Proof.
  intros [k' Hk]%submseteq_Permutation Hnd. rewrite Hk in Hnd.
  by apply NoDup_app in Hnd as [? _].
Qed.




(** ** Draw *)

Lemma lookup_total_Some `{Inhabited V} (m : gmap Z V) k v :
  m !! k = Some v → m !!! k = v.
Proof. intros Hk. by rewrite lookup_total_alt, Hk. Qed.



Lemma Draw_already ord rnd d prizeNo pz :
  prizes d !! prizeNo = Some pz → 1 ≤ Amount pz →
  is_Some (winners d !! prizeNo) →
  Draw ord rnd d prizeNo = (d, ([], Some ErrWinnersExistBeforeDraw)).
Proof.
  intros Hp Ha [ws Hw]. unfold Draw.
  rewrite Hp, (lookup_total_Some _ _ _ Hp), Hw.
  by destruct (Z.ltb_spec (Amount pz) 1); [lia|].
Qed.

Lemma Draw_none_available ord rnd d prizeNo pz :
  prizes d !! prizeNo = Some pz → 1 ≤ Amount pz →
  winners d !! prizeNo = None →
  length (availableParticipants ord d prizeNo) = 0%nat →
  Draw ord rnd d prizeNo = (d, ([], Some ErrNoAvailableParticipants)).
Proof.
  intros Hp Ha Hw Hl. unfold Draw.
  rewrite Hp, (lookup_total_Some _ _ _ Hp), Hw.
  destruct (Z.ltb_spec (Amount pz) 1); [lia|].
  by destruct (decide _).
Qed.


(** Whatever the outcome, [Draw] leaves prizes and participants alone. *)
Lemma Draw_frame ord rnd d prizeNo :
  prizes (Draw ord rnd d prizeNo).1 = prizes d ∧
  participants (Draw ord rnd d prizeNo).1 = participants d ∧
  name (Draw ord rnd d prizeNo).1 = name d.
Proof.
  unfold Draw. repeat (case_match; try done).
Qed.



(** On states whose participants are registered under their own ids the
    drawn winners have pairwise distinct ids. *)
Lemma Draw_success_NoDup ord rnd d prizeNo ws d' :
  keyedByID (participants d) →
  Draw ord rnd d prizeNo = (d', (ws, None)) →
  NoDup (ID <$> ws) ∧ ws ⊆+ availableParticipants ord d prizeNo ∧
  winners d !! prizeNo = None ∧
  d' = with_winners d (<[prizeNo := ws]> (winners d)).
Proof.
  intros Hk. unfold Draw.
  destruct (prizes d !! prizeNo) as [pz|]; [|done].
  destruct (_ <? 1); [done|].
  destruct (winners d !! prizeNo); [done|].
  destruct (decide _); [done|].
  destruct (draw_spec rnd (Amount (prizes d !!! prizeNo))
              (availableParticipants ord d prizeNo)) as (ws' & -> & _ & Hsub).
  intros [= <- <-]. split_and!; [|done..].
  eapply NoDup_of_submseteq; [by apply fmap_submseteq|].
  by apply availableParticipants_NoDup.
Qed.


(** ** Bulk loading: what it leaves alone *)

Lemma LoadPrizesCSV_frame d r :
  name (LoadPrizesCSV d r).1 = name d ∧
  participants (LoadPrizesCSV d r).1 = participants d ∧
  winners (LoadPrizesCSV d r).1 = winners d.
Proof.
  unfold LoadPrizesCSV. destruct r as [e|rows]; [done|].
  by destruct (loadPrizeRows _ _).
Qed.

Lemma LoadParticipantsCSV_frame d r :
  name (LoadParticipantsCSV d r).1 = name d ∧
  prizes (LoadParticipantsCSV d r).1 = prizes d ∧
  winners (LoadParticipantsCSV d r).1 = winners d.
Proof.
  unfold LoadParticipantsCSV. destruct r as [e|rows]; [done|].
  by destruct (loadParticipantRows _ _).
Qed.

Lemma loadParticipantRows_keyed rows m :
  keyedByID m → keyedByID (loadParticipantRows rows m).1.
Proof.
  revert m. induction rows as [|row rows IH]; intros m Hm; [done|].
  simpl. destruct row as [|id [|nm [|? ?]]]; try done.
  apply IH. by apply map_Forall_insert_2.
Qed.

Lemma LoadParticipantsCSV_keyed d r :
  keyedByID (participants d) →
  keyedByID (participants (LoadParticipantsCSV d r).1).
Proof.
  intros Hk. unfold LoadParticipantsCSV. destruct r as [e|rows]; [done|].
  pose proof (loadParticipantRows_keyed (drop 1 rows) ∅) as H.
  destruct (loadParticipantRows _ _) as [m err]. simpl in *.
  apply H, map_Forall_empty.
Qed.

(** ** Revoke *)

Lemma revokeLoop_lookup rs m m' k :
  revokeLoop rs m = Some m' →
  m' !! k = if decide (k ∈ ID <$> rs) then None else m !! k.
Proof.
  revert m. induction rs as [|r rs IH]; intros m.
  - intros [= <-]. destruct (decide _) as [H|]; [by apply elem_of_nil in H|done].
  - cbn [revokeLoop]. destruct (m !! ID r) as [x|] eqn:Hr; [|done].
    intros Hm'. rewrite (IH _ Hm'), lookup_delete, fmap_cons.
    repeat destruct (decide _); try done; set_solver.
Qed.

Lemma revokeLoop_is_Some rs m :
  is_Some (revokeLoop rs m) ↔
  NoDup (ID <$> rs) ∧ ∀ r, r ∈ rs → is_Some (m !! ID r).
Proof.
  revert m. induction rs as [|r rs IH]; intros m.
  - split; [|by eauto]. intros _. split; [constructor|].
    intros r Hr. by apply elem_of_nil in Hr.
  - cbn [revokeLoop]. rewrite fmap_cons, NoDup_cons.
    destruct (m !! ID r) as [x|] eqn:Hr.
    + rewrite IH. split.
      * intros [Hnd Hall]. split_and!; [|done|].
        -- intros (r' & Heq & Hr')%list_elem_of_fmap.
           destruct (Hall r' Hr') as [y Hy].
           rewrite <- Heq, lookup_delete_eq in Hy. done.
        -- intros r' [->|Hr']%elem_of_cons; [by eauto|].
           destruct (Hall r' Hr') as [y Hy].
           apply lookup_delete_Some in Hy as [_ Hy]. eauto.
      * intros [[Hnr Hnd] Hall]. split; [done|].
        intros r' Hr'. rewrite lookup_delete_ne.
        -- apply Hall. by right.
        -- intros Heq. apply Hnr. rewrite Heq. by apply list_elem_of_fmap_2.
    + split; [by intros [? ?]|]. intros [_ Hall].
      destruct (Hall r) as [y Hy]; [left|]. congruence.
Qed.

Lemma Revoke_guards_passed ord d prizeNo rs ws :
  drawnPrize d prizeNo ws →
  Revoke ord d prizeNo rs
  = match revokeLoop rs (participantSliceToMap ws) with
    | None => (d, Some ErrRevokedWinnerNotMatch)
    | Some m =>
      (with_winners d (<[prizeNo := participantMapToSlice ord m]> (winners d)),
       None)
    end.
Proof.
  intros [(pz & Hp & Ha) Hw]. unfold Revoke.
  rewrite Hp, (lookup_total_Some _ _ _ Hp), Hw, (lookup_total_Some _ _ _ Hw).
  by destruct (Z.ltb_spec (Amount pz) 1); [lia|].
Qed.

Lemma Revoke_success_inv ord d prizeNo rs d' :
  Revoke ord d prizeNo rs = (d', None) →
  ∃ ws m, drawnPrize d prizeNo ws ∧
          revokeLoop rs (participantSliceToMap ws) = Some m ∧
          d' = with_winners d
                 (<[prizeNo := participantMapToSlice ord m]> (winners d)).
Proof.
  unfold Revoke.
  destruct (prizes d !! prizeNo) as [pz|] eqn:Hp; [|done].
  rewrite (lookup_total_Some _ _ _ Hp).
  destruct (Z.ltb_spec (Amount pz) 1); [done|].
  destruct (winners d !! prizeNo) as [ws|] eqn:Hw; [|done].
  rewrite (lookup_total_Some _ _ _ Hw).
  destruct (revokeLoop _ _) as [m|] eqn:Hm; [|done].
  intros [= <-]. exists ws, m. split_and!; try done.
  split; [|done]. exists pz. split; [done | lia].
Qed.

(** What is left after a successful revocation. *)
Lemma revoked_slice ord rs ws m :
  revokeLoop rs (participantSliceToMap ws) = Some m →
  let ws' := participantMapToSlice ord m in
  NoDup (ID <$> ws') ∧
  (∀ x, x ∈ ws' → x ∈ ws ∧ ID x ∉ ID <$> rs) ∧
  (∀ k, k ∈ ID <$> ws' ↔ k ∈ ID <$> ws ∧ k ∉ ID <$> rs) ∧
  (NoDup (ID <$> ws) → ws' ≡ₚ filter (λ x, ID x ∉ ID <$> rs) ws).
Proof.
  intros Hm ws'.
  assert (Hlk : ∀ k x, m !! k = Some x ↔
                k ∉ ID <$> rs ∧ participantSliceToMap ws !! k = Some x).
  { intros k x. rewrite (revokeLoop_lookup _ _ _ k Hm).
    destruct (decide _); naive_solver. }
  assert (Hkeyed : keyedByID m).
  { intros k x [_ Hx]%Hlk. by apply participantSliceToMap_keyed in Hx. }
  assert (Hel : ∀ x, x ∈ ws' → x ∈ ws ∧ ID x ∉ ID <$> rs).
  { intros x [k Hk]%elem_of_participantMapToSlice.
    pose proof (Hkeyed k x Hk) as Hid. simpl in Hid. subst k.
    apply Hlk in Hk as [Hn Hx]. split; [|done].
    by eapply participantSliceToMap_elem. }
  split_and!.
  - by apply participantMapToSlice_NoDup.
  - done.
  - intros k. split.
    + intros (x & -> & Hx)%list_elem_of_fmap. apply Hel in Hx as [Hx Hn].
      split; [by apply list_elem_of_fmap_2 | done].
    + intros [Hk Hn]. apply participantSliceToMap_is_Some in Hk as [x Hx].
      assert (Hm' : m !! k = Some x) by (by apply Hlk).
      pose proof (Hkeyed k x Hm') as Hid. simpl in Hid. subst k.
      apply list_elem_of_fmap_2, elem_of_participantMapToSlice. eauto.
  - intros Hnd. apply NoDup_Permutation.
    + eapply NoDup_fmap_1. by apply participantMapToSlice_NoDup.
    + apply NoDup_filter. by eapply NoDup_fmap_1.
    + intros x. rewrite list_elem_of_filter. split; [by intros [? ?]%Hel|].
      intros [Hn Hx]. apply elem_of_participantMapToSlice. exists (ID x).
      apply Hlk. split; [done|]. by apply participantSliceToMap_lookup.
Qed.

(** A slice that names an id twice is rejected, although each of its ids
    is a winner's: the second occurrence no longer matches. *)
Lemma Revoke_duplicate ord d prizeNo rs ws :
  drawnPrize d prizeNo ws → ¬ NoDup (ID <$> rs) →
  Revoke ord d prizeNo rs = (d, Some ErrRevokedWinnerNotMatch).
Proof.
  intros Hd Hdup. rewrite (Revoke_guards_passed _ _ _ _ ws Hd).
  destruct (revokeLoop _ _) as [m|] eqn:Hm; [|done].
  exfalso. apply Hdup.
  by apply mk_is_Some, revokeLoop_is_Some in Hm as [? _].
Qed.



(** ** Redraw *)

Lemma Redraw_guards_passed ord rnd d prizeNo amount ws :
  drawnPrize d prizeNo ws →
  Redraw ord rnd d prizeNo amount
  = if amount >? Amount (prizes d !!! prizeNo) - Z.of_nat (length ws)
    then (d, ([], Some ErrRedrawPrizeAmount))
    else if decide (length (availableParticipants ord d prizeNo) = 0%nat)
    then (d, ([], Some ErrNoAvailableParticipants))
    else
      match draw rnd amount (availableParticipants ord d prizeNo) with
      | None => (d, ([], Some GoPanic))
      | Some new =>
        (with_winners d (<[prizeNo := ws ++ new]> (winners d)), (new, None))
      end.
Proof.
  intros [(pz & Hp & Ha) Hw]. unfold Redraw.
  rewrite Hp, (lookup_total_Some _ _ _ Hp), Hw, (lookup_total_Some _ _ _ Hw).
  by destruct (Z.ltb_spec (Amount pz) 1); [lia|].
Qed.

Lemma Redraw_success_inv ord rnd d prizeNo amount d' new :
  Redraw ord rnd d prizeNo amount = (d', (new, None)) →
  ∃ pz ws,
    prizes d !! prizeNo = Some pz ∧ 1 ≤ Amount pz ∧
    winners d !! prizeNo = Some ws ∧
    amount ≤ Amount pz - Z.of_nat (length ws) ∧
    d' = with_winners d (<[prizeNo := ws ++ new]> (winners d)) ∧
    new ⊆+ availableParticipants ord d prizeNo ∧
    length new
    = Z.to_nat (Z.min amount
                  (Z.of_nat (length (availableParticipants ord d prizeNo)))).
Proof.
  unfold Redraw.
  destruct (prizes d !! prizeNo) as [pz|] eqn:Hp; [|done].
  rewrite (lookup_total_Some _ _ _ Hp).
  destruct (Z.ltb_spec (Amount pz) 1); [done|].
  destruct (winners d !! prizeNo) as [ws|] eqn:Hw; [|done].
  rewrite (lookup_total_Some _ _ _ Hw).
  destruct (Z.gtb_spec amount (Amount pz - Z.of_nat (length ws))); [done|].
  destruct (decide _); [done|].
  destruct (draw_spec rnd amount (availableParticipants ord d prizeNo))
    as (new' & -> & Hlen & Hsub).
  intros [= <- <-]. exists pz, ws. split_and!; try done; lia.
Qed.

Lemma reachable_run nm ops : reachable (run (New nm) ops).
Proof.
  induction ops as [|o ops IH] using rev_ind; [constructor|].
  unfold run. rewrite foldl_app. simpl. by constructor.
Qed.

(** C7, as stated, fails.  A prize drawn in full and then set to a smaller
    amount holds more winners than slots; a redraw by a negative amount
    passes the capacity test, samples nobody and succeeds, and the winner
    count (3) is still above the amount (1). *)
Lemma Redraw_capacity_counterexample :
  reachable demo_shrunk ∧
  Redraw [] [] demo_shrunk 1 (-5) = (demo_shrunk, ([], None)) ∧
  ¬ (Z.of_nat (length (Winners (Redraw [] [] demo_shrunk 1 (-5)).1 1))
     ≤ Amount (GetPrize (Redraw [] [] demo_shrunk 1 (-5)).1 1)).
Proof.
  split; [apply reachable_run|]. split; [vm_compute; reflexivity|].
  vm_compute. intros H. apply H. reflexivity.
Qed.

(** C7, amended.  On a drawn prize [Redraw] fails with
    [ErrRedrawPrizeAmount], leaving the session as it was, whenever the
    requested amount exceeds the prize's amount minus its current winner
    count.  A successful [Redraw] appends what it sampled to the prize's
    winners; the new count is at most the prize's amount when the
    requested amount is not negative, and for a negative request nothing
    is sampled: the count never grows beyond the larger of the amount and
    the previous count. *)
Theorem Redraw_capacity ord rnd d prizeNo amount :
  (∀ pz ws,
     prizes d !! prizeNo = Some pz → 1 ≤ Amount pz →
     winners d !! prizeNo = Some ws →
     amount > Amount pz - Z.of_nat (length ws) →
     Redraw ord rnd d prizeNo amount = (d, ([], Some ErrRedrawPrizeAmount))) ∧
  (∀ d' new,
     Redraw ord rnd d prizeNo amount = (d', (new, None)) →
     ∃ pz ws,
       prizes d' !! prizeNo = Some pz ∧
       winners d !! prizeNo = Some ws ∧
       winners d' !! prizeNo = Some (ws ++ new) ∧
       (0 ≤ amount → Z.of_nat (length (ws ++ new)) ≤ Amount pz) ∧
       (amount < 0 → new = []) ∧
       Z.of_nat (length (ws ++ new))
       ≤ Z.max (Amount pz) (Z.of_nat (length ws))).
Proof.
  split.
  - intros pz ws Hp Ha Hw Hgt.
    rewrite (Redraw_guards_passed _ _ _ _ _ ws) by (split; eauto).
    rewrite (lookup_total_Some _ _ _ Hp).
    by destruct (Z.gtb_spec amount (Amount pz - Z.of_nat (length ws))); [|lia].
  - intros d' new (pz & ws & Hp & Ha & Hw & Hle & -> & _ & Hlen)%Redraw_success_inv.
    exists pz, ws. simpl. rewrite lookup_insert_eq, length_app.
    split_and!; try done.
    + lia.
    + intros Hneg. apply nil_length_inv. lia.
    + lia.
Qed.

Lemma Redraw_capacity_witness :
  Redraw [] [] demo_d2 1 1 = (demo_d2, ([], Some ErrRedrawPrizeAmount)) ∧
  ∃ pz ws,
    prizes (Redraw [] [] (Revoke [] demo_d2 1 [demo_B]).1 1 1).1 !! 1
    = Some pz ∧
    winners (Redraw [] [] (Revoke [] demo_d2 1 [demo_B]).1 1 1).1 !! 1
    = Some ws ∧
    Z.of_nat (length ws) ≤ Amount pz.
Proof.
  split.
  - apply (proj1 (Redraw_capacity [] [] demo_d2 1 1)
                 (mkPrize 1 "first" 2 "") [demo_B; demo_A]).
    + vm_compute. reflexivity.
    + simpl. lia.
    + vm_compute. reflexivity.
    + simpl. lia.
  - destruct (proj2 (Redraw_capacity [] [] (Revoke [] demo_d2 1 [demo_B]).1
                       1 1)
                    (Redraw [] [] (Revoke [] demo_d2 1 [demo_B]).1 1 1).1
                    [demo_C])
      as (pz & ws & Hp & _ & Hw & Hle & _).
    + vm_compute. reflexivity.
    + exists pz, (ws ++ [demo_C]). split; [exact Hp|].
      split; [exact Hw|]. apply Hle. lia.
Defined.

(** C6, as stated, fails for [Revoke].  Ann, Bob and Cy won in this
    order; revoking Bob leaves Cy before Ann: the remaining winners are
    listed in the iteration order of a map, here the reverse of their
    draw order. *)
Lemma Revoke_order_counterexample :
  reachable demo_abc ∧
  Winners demo_abc 1 = [demo_A; demo_B; demo_C] ∧
  (Revoke [] demo_abc 1 [demo_B]).2 = None ∧
  Winners (Revoke [] demo_abc 1 [demo_B]).1 1 = [demo_C; demo_A] ∧
  Winners (Revoke [] demo_abc 1 [demo_B]).1 1
  ≠ filter (λ x, ID x ∉ ID <$> [demo_B]) (Winners demo_abc 1).
Proof.
  split; [apply reachable_run|]. split_and!; try (vm_compute; reflexivity).
  vm_compute. intros [=].
Qed.

(** C6, amended.  A successful [Redraw] appends the newly sampled winners
    after the existing ones, which keep their places.  A successful
    [Revoke] leaves winners that were there and were not revoked, each
    once, all of them when the previous ids were distinct, in an order of
    its own (that of a map iteration), not necessarily their previous
    relative order.  Neither touches another prize's sequence. *)
Theorem winner_order ord rnd d prizeNo :
  (∀ amount d' new,
     Redraw ord rnd d prizeNo amount = (d', (new, None)) →
     ∃ ws, winners d !! prizeNo = Some ws ∧
           winners d' !! prizeNo = Some (ws ++ new) ∧
           ∀ q, q ≠ prizeNo → winners d' !! q = winners d !! q) ∧
  (∀ rs d',
     Revoke ord d prizeNo rs = (d', None) →
     ∃ ws ws', winners d !! prizeNo = Some ws ∧
               winners d' !! prizeNo = Some ws' ∧
               ws' ⊆+ filter (λ x, ID x ∉ ID <$> rs) ws ∧
               (NoDup (ID <$> ws) →
                  ws' ≡ₚ filter (λ x, ID x ∉ ID <$> rs) ws) ∧
               ∀ q, q ≠ prizeNo → winners d' !! q = winners d !! q).
Proof.
  split.
  - intros amount d' new
      (pz & ws & _ & _ & Hw & _ & -> & _)%Redraw_success_inv.
    exists ws. simpl. rewrite lookup_insert_eq. split_and!; [done..|].
    intros q Hq. by rewrite lookup_insert_ne.
  - intros rs d' (ws & m & [_ Hw] & Hm & ->)%Revoke_success_inv.
    destruct (revoked_slice ord rs ws m Hm) as (Hnd & Hel & _ & Hperm).
    exists ws, (participantMapToSlice ord m). simpl.
    rewrite lookup_insert_eq. split_and!; [done..| | done |].
    + apply NoDup_submseteq; [by eapply NoDup_fmap_1|].
      intros x Hx. apply list_elem_of_filter. by destruct (Hel x Hx).
    + intros q Hq. by rewrite lookup_insert_ne.
Qed.

Lemma winner_order_witness :
  ∃ ws', winners (Revoke [] demo_abc 1 [demo_B]).1 !! 1 = Some ws' ∧
         ws' ≡ₚ [demo_A; demo_C].
Proof.
  destruct (proj2 (winner_order [] [] demo_abc 1) [demo_B]
                  (Revoke [] demo_abc 1 [demo_B]).1)
    as (ws & ws' & Hw & Hw' & _ & Hperm & _).
  - vm_compute. reflexivity.
  - exists ws'. split; [exact Hw'|].
    assert (ws = [demo_A; demo_B; demo_C]) as ->.
    { apply (inj Some). rewrite <- Hw. vm_compute. reflexivity. }
    apply Hperm. apply (bool_decide_unpack _). vm_compute. exact I.
Defined.

(** ** Failures leave the session as it was *)

Lemma Draw_failure_unchanged ord rnd d prizeNo :
  (Draw ord rnd d prizeNo).2.2 ≠ None → (Draw ord rnd d prizeNo).1 = d.
Proof. unfold Draw. repeat (case_match; try done). Qed.

Lemma Revoke_failure_unchanged ord d prizeNo rs :
  (Revoke ord d prizeNo rs).2 ≠ None → (Revoke ord d prizeNo rs).1 = d.
Proof. unfold Revoke. repeat (case_match; try done). Qed.

Lemma Redraw_failure_unchanged ord rnd d prizeNo amount :
  (Redraw ord rnd d prizeNo amount).2.2 ≠ None →
  (Redraw ord rnd d prizeNo amount).1 = d.
Proof. unfold Redraw. repeat (case_match; try done). Qed.

Lemma Load_failure_unchanged d r :
  (Load d r).2 ≠ None → (Load d r).1 = d.
Proof. unfold Load. repeat (case_match; try done). Qed.

(** ** The winner invariant *)

Lemma winnersDisjoint_empty : winnersDisjoint ∅.
Proof.
  split; [intros p l | intros p1 p2 l1 l2 x y _]; by rewrite lookup_empty.
Qed.

Lemma winnersDisjoint_insert ws p l :
  winnersDisjoint ws → NoDup (ID <$> l) →
  (∀ q l' x y, q ≠ p → ws !! q = Some l' → x ∈ l → y ∈ l' → ID x ≠ ID y) →
  winnersDisjoint (<[p := l]> ws).
Proof.
  intros [H1 H2] Hnd Hdis. split.
  - intros q l'. rewrite lookup_insert. case_decide; [naive_solver | eauto].
  - intros p1 p2 l1 l2 x y Hne Hl1 Hl2 Hx Hy.
    rewrite lookup_insert in Hl1. rewrite lookup_insert in Hl2.
    repeat case_decide; simplify_eq.
    + intros Heq. by eapply (Hdis p1 l1 y x).
    + by eapply (Hdis p2 l2 x y).
    + by eapply (H2 p1 p2 l1 l2).
Qed.

Lemma available_not_winner ord d prizeNo x :
  keyedByID (participants d) →
  x ∈ availableParticipants ord d prizeNo → ID x ∉ winnerIDs (winners d).
Proof.
  intros Hk (k & Hx & Hn)%elem_of_availableParticipants.
  by rewrite (Hk k x Hx).
Qed.

Lemma sample_fresh ord d prizeNo new q l x y :
  keyedByID (participants d) →
  new ⊆+ availableParticipants ord d prizeNo →
  winners d !! q = Some l → x ∈ new → y ∈ l → ID x ≠ ID y.
Proof.
  intros Hk Hsub Hl Hx Hy Heq.
  apply (available_not_winner ord d prizeNo x Hk).
  - by eapply elem_of_submseteq.
  - rewrite Heq. apply elem_of_winnerIDs. by exists q, l, y.
Qed.

Lemma Draw_Inv ord rnd d prizeNo : Inv d → Inv (Draw ord rnd d prizeNo).1.
Proof.
  intros [Hk Hw].
  destruct (Draw ord rnd d prizeNo) as [d' [ws [e|]]] eqn:E.
  { pose proof (Draw_failure_unchanged ord rnd d prizeNo) as H.
    rewrite E in H. simpl in *. by rewrite H. }
  apply Draw_success_NoDup in E as (Hnd & Hsub & Hnone & ->); [|done].
  split; [done|]. simpl. apply winnersDisjoint_insert; [done..|].
  intros q l' x y _ Hl' Hx Hy. by eapply sample_fresh.
Qed.

Lemma Revoke_Inv ord d prizeNo rs : Inv d → Inv (Revoke ord d prizeNo rs).1.
Proof.
  intros [Hk Hw].
  destruct (Revoke ord d prizeNo rs) as [d' [e|]] eqn:E.
  { pose proof (Revoke_failure_unchanged ord d prizeNo rs) as H.
    rewrite E in H. simpl in *. by rewrite H. }
  apply Revoke_success_inv in E as (ws & m & [_ Hws] & Hm & ->).
  destruct (revoked_slice ord rs ws m Hm) as (Hnd & Hel & _).
  split; [done|]. simpl. apply winnersDisjoint_insert; [done..|].
  intros q l' x y Hq Hl' Hx Hy. destruct Hw as [_ Hw].
  eapply (Hw prizeNo q); [done..| |done]. by apply Hel.
Qed.

Lemma Redraw_Inv ord rnd d prizeNo amount :
  Inv d → Inv (Redraw ord rnd d prizeNo amount).1.
Proof.
  intros [Hk Hw].
  destruct (Redraw ord rnd d prizeNo amount) as [d' [new [e|]]] eqn:E.
  { pose proof (Redraw_failure_unchanged ord rnd d prizeNo amount) as H.
    rewrite E in H. simpl in *. by rewrite H. }
  apply Redraw_success_inv in E
    as (pz & ws & _ & _ & Hws & _ & -> & Hsub & _).
  split; [done|]. simpl. apply winnersDisjoint_insert; [done| |].
  - rewrite fmap_app. apply NoDup_app. split_and!.
    + destruct Hw as [Hw _]. by eapply Hw.
    + intros k (y & -> & Hy)%list_elem_of_fmap (x & Heq & Hx)%list_elem_of_fmap.
      by eapply (sample_fresh ord d prizeNo new prizeNo ws x y).
    + eapply NoDup_of_submseteq; [by apply fmap_submseteq|].
      by apply availableParticipants_NoDup.
  - intros q l' x y Hq Hl' [Hx|Hx]%elem_of_app Hy.
    + destruct Hw as [_ Hw]. by eapply (Hw prizeNo q).
    + by eapply sample_fresh.
Qed.

Lemma step_Inv d o : wfOp o → Inv d → Inv (step d o).
Proof.
  intros Ho [Hk Hw].
  destruct o as [no nm amount desc|r|r|ord rnd p|ord p rs|ord rnd p a|p| |r];
    simpl.
  - done.
  - destruct (LoadPrizesCSV_frame d r) as (_ & Hp & Hws).
    split; [by rewrite Hp | by rewrite Hws].
  - destruct (LoadParticipantsCSV_frame d r) as (_ & _ & Hws).
    split; [by apply LoadParticipantsCSV_keyed | by rewrite Hws].
  - by apply Draw_Inv.
  - by apply Revoke_Inv.
  - by apply Redraw_Inv.
  - split; [done|]. simpl. apply winnersDisjoint_insert; [done|constructor|].
    intros q l' x y _ _ Hx. by apply elem_of_nil in Hx.
  - split; [done | apply winnersDisjoint_empty].
  - unfold Load. destruct r as [e|data]; [done|].
    destruct (decide _); [done|]. exact Ho.
Qed.

Lemma run_Inv d ops : Forall wfOp ops → Inv d → Inv (run d ops).
Proof.
  revert d. induction ops as [|o ops IH]; intros d Hops Hd; [done|].
  apply Forall_cons in Hops as [Ho Hops]. simpl. by apply IH, step_Inv.
Qed.

Lemma New_Inv nm : Inv (New nm).
Proof. split; [apply map_Forall_empty | apply winnersDisjoint_empty]. Qed.

(** A test that computes: no id twice among all winners. *)
Lemma winnersDisjoint_of_NoDup ws : NoDup (winnerIDs ws) → winnersDisjoint ws.
Proof.
  unfold winnerIDs. intros Hnd. split.
  - intros p l Hl.
    rewrite <- (map_to_list_delete ws p l Hl) in Hnd.
    rewrite bind_cons, fmap_app in Hnd. simpl in Hnd.
    by apply NoDup_app in Hnd as [? _].
  - intros p1 p2 l1 l2 x y Hne Hl1 Hl2 Hx Hy Heq.
    rewrite <- (map_to_list_delete ws p1 l1 Hl1) in Hnd.
    rewrite <- (map_to_list_delete (delete p1 ws) p2 l2) in Hnd
      by (by rewrite lookup_delete_ne).
    rewrite !bind_cons, !fmap_app in Hnd. simpl in Hnd.
    apply NoDup_app in Hnd as (_ & Hdis & _).
    apply (Hdis (ID x)); [by apply list_elem_of_fmap_2|].
    apply elem_of_app. left. rewrite Heq. by apply list_elem_of_fmap_2.
Qed.

(** ** Save and Load *)

Lemma Load_accepts d data :
  sprintfX (computeWinnersHash (default ∅ (sdWinners data)))
  = sdChecksum data →
  Load d (ReadOk data)
  = (mkLottery (name d) (default ∅ (sdPrizes data))
               (default ∅ (sdParticipants data))
               (default ∅ (sdWinners data)), None).
Proof. intros Hc. unfold Load. by destruct (decide _). Qed.

Lemma Load_rejects d data :
  sprintfX (computeWinnersHash (default ∅ (sdWinners data)))
  ≠ sdChecksum data →
  Load d (ReadOk data) = (d, Some ErrChecksum).
Proof. intros Hc. unfold Load. by destruct (decide _). Qed.

(** Save then Load reproduces the three maps (a decoder that reads back
    what the encoder wrote yields the record that was encoded). *)
Lemma Load_Save d0 d tm :
  Load d (ReadOk (Save d0 tm))
  = (mkLottery (name d) (prizes d0) (participants d0) (winners d0), None).
Proof. by apply Load_accepts. Qed.

Lemma wfRecord_Save d tm : Inv d → wfRecord (Save d tm).
Proof. done. Qed.

(** C1, as stated, fails: [Load] checks the checksum of the record's
    winners and nothing else.  A record in which Ann wins prize 1 and
    prize 2, with the checksum of exactly these winners, is accepted by a
    fresh session, and in the state reached Ann is a winner of two
    prizes. *)
Lemma winner_disjointness_counterexample :
  reachable (Load (New "demo") (ReadOk demo_double)).1 ∧
  (Load (New "demo") (ReadOk demo_double)).2 = None ∧
  winners (Load (New "demo") (ReadOk demo_double)).1 !! 1 = Some [demo_A] ∧
  winners (Load (New "demo") (ReadOk demo_double)).1 !! 2 = Some [demo_A] ∧
  ¬ winnersDisjoint (winners (Load (New "demo") (ReadOk demo_double)).1).
Proof.
  split.
  { apply (reachable_step (New "demo") (OpLoad (ReadOk demo_double))).
    constructor. }
  split; [vm_compute; reflexivity|].
  split; [vm_compute; reflexivity|].
  split; [vm_compute; reflexivity|].
  intros [_ Hdis].
  apply (Hdis 1 2 [demo_A] [demo_A] demo_A demo_A).
  - lia.
  - vm_compute. reflexivity.
  - vm_compute. reflexivity.
  - left.
  - left.
  - reflexivity.
Qed.

(** C1, amended.  In every state reached from a fresh session by public
    operations whose [Load]s, if any, read records that are themselves
    well formed (participants registered under their own ids, winners
    disjoint: what [Save] writes from such a session), each participant id
    appears in at most one prize's winner sequence, and at most once in
    it. *)
Theorem winner_disjointness nm ops :
  Forall wfOp ops →
  (∀ p l, winners (run (New nm) ops) !! p = Some l → NoDup (ID <$> l)) ∧
  (∀ p1 p2 l1 l2 x y,
     p1 ≠ p2 →
     winners (run (New nm) ops) !! p1 = Some l1 →
     winners (run (New nm) ops) !! p2 = Some l2 →
     x ∈ l1 → y ∈ l2 → ID x ≠ ID y).
Proof.
  intros Hops. by destruct (run_Inv (New nm) ops Hops (New_Inv nm)) as [_ ?].
Qed.

Lemma winner_disjointness_witness :
  ∃ l,
    winners (run (New "demo")
               [ OpLoad (ReadOk (Save demo_d2 demo_time));
                 OpSetPrize 2 "second" 1 ""; OpDraw [] [0]%nat 2;
                 OpRevoke [] 1 [demo_A]; OpRedraw [] [0]%nat 1 1 ]) !! 1
    = Some l ∧
    NoDup (ID <$> l).
Proof.
  eexists. split; [vm_compute; reflexivity|].
  refine (proj1 (winner_disjointness "demo"
                   [ OpLoad (ReadOk (Save demo_d2 demo_time));
                     OpSetPrize 2 "second" 1 ""; OpDraw [] [0]%nat 2;
                     OpRevoke [] 1 [demo_A]; OpRedraw [] [0]%nat 1 1 ] _)
                1 _ _).
  - apply Forall_cons. split; [split | repeat constructor].
    + apply (bool_decide_unpack _). vm_compute. exact I.
    + apply winnersDisjoint_of_NoDup.
      apply (bool_decide_unpack _). vm_compute. exact I.
  - vm_compute. reflexivity.
Defined.

(** ** Winner entries persist *)

Lemma Draw_success_inv ord rnd d prizeNo d' ws :
  Draw ord rnd d prizeNo = (d', (ws, None)) →
  winners d !! prizeNo = None ∧
  d' = with_winners d (<[prizeNo := ws]> (winners d)).
Proof.
  unfold Draw.
  destruct (prizes d !! prizeNo); [|done].
  destruct (_ <? 1); [done|].
  destruct (winners d !! prizeNo); [done|].
  destruct (decide _); [done|].
  destruct (draw _ _ _); [|done].
  by intros [= <- <-].
Qed.








(** C4.  [Load] verifies, then replaces.  It recomputes the checksum over
    the record's winners (those of a missing map are none).  If the
    result differs from the stored checksum, [Load] fails with
    [ErrChecksum] and the session is what it was.  If it matches, [Load]
    succeeds and the session holds the record's prizes, participants and
    winners, an empty map standing for each missing one; the session
    keeps its name. *)
Theorem Load_verifies_then_replaces d data :
  (sprintfX (computeWinnersHash (default ∅ (sdWinners data)))
   ≠ sdChecksum data →
     Load d (ReadOk data) = (d, Some ErrChecksum)) ∧
  (sprintfX (computeWinnersHash (default ∅ (sdWinners data)))
   = sdChecksum data →
     ∃ d', Load d (ReadOk data) = (d', None) ∧
           name d' = name d ∧
           prizes d'
           = match sdPrizes data with Some m => m | None => ∅ end ∧
           participants d'
           = match sdParticipants data with Some m => m | None => ∅ end ∧
           winners d'
           = match sdWinners data with Some m => m | None => ∅ end).
Proof.
  split; [apply Load_rejects|].
  intros Hc. rewrite (Load_accepts d data Hc). clear Hc.
  eexists. split; [reflexivity|].
  destruct data as [? [?|] [?|] [?|] ? ?]; simpl; repeat split.
Qed.

Lemma Load_verifies_then_replaces_witness :
  Load demo_d2 (ReadOk demo_corrupt) = (demo_d2, Some ErrChecksum) ∧
  ∃ d', Load demo_d2 (ReadOk demo_double) = (d', None) ∧
        prizes d' = ∅ ∧ participants d' = ∅ ∧
        winners d' = <[1 := [demo_A]]> (<[2 := [demo_A]]> ∅).
Proof.
  split.
  - apply (proj1 (Load_verifies_then_replaces demo_d2 demo_corrupt)).
    vm_compute. intros [=].
  - destruct (proj2 (Load_verifies_then_replaces demo_d2 demo_double))
      as (d' & HL & _ & Hp & Hq & Hw).
    + vm_compute. reflexivity.
    + exists d'. split; [exact HL|]. split; [exact Hp|].
      split; [exact Hq | exact Hw].
Defined.

(** ** The checksum *)

Lemma feedWinner_stream (l : list Participant) (h : list Z) :
  foldl (fun h winner =>
           hWrite (hWrite h (bytes (ID winner))) (bytes (Name winner))) h l
  = h ++ concat (winnerBytes <$> l).
Proof.
  revert h. induction l as [|x l IH]; intros h; simpl.
  - by rewrite app_nil_r.
  - rewrite IH. unfold hWrite, winnerBytes. by rewrite <- !app_assoc.
Qed.

Lemma feedWinners_stream w h arr :
  feedWinners w h arr = h ++ concat (prizeBytes w <$> arr).
Proof.
  unfold feedWinners. revert h. induction arr as [|k arr IH]; intros h; simpl.
  - by rewrite app_nil_r.
  - rewrite IH, feedWinner_stream. unfold hWrite, prizeBytes.
    by rewrite <- !app_assoc.
Qed.

(** The code digests the stream the specification describes. *)
Lemma computeWinnersHash_stream w :
  computeWinnersHash w = MD5.sum (winnersStream w).
Proof.
  unfold computeWinnersHash, hSum. by rewrite feedWinners_stream.
Qed.

Lemma bytes_inj s1 s2 : bytes s1 = bytes s2 → s1 = s2.
Proof.
  unfold bytes. intros H.
  rewrite <- (string_of_list_ascii_of_string s1),
          <- (string_of_list_ascii_of_string s2).
  f_equal. revert H. generalize (list_ascii_of_string s2).
  induction (list_ascii_of_string s1) as [|a l IH]; intros [|b k]; simpl;
    try done.
  intros [= Hab Hl]. f_equal; [|by apply IH].
  apply N2Z.inj in Hab.
  rewrite <- (ascii_N_embedding a), <- (ascii_N_embedding b). by rewrite Hab.
Qed.

Lemma sortedKeys_insert (w : gmap Z (list Participant)) p l l' :
  w !! p = Some l →
  merge_sort Z.le (fst <$> map_to_list (<[p := l']> w))
  = merge_sort Z.le (fst <$> map_to_list w).
Proof.
  intros Hp. apply (Sorted_unique Z.le).
  - apply Sorted_merge_sort. apply _.
  - apply Sorted_merge_sort. apply _.
  - rewrite !merge_sort_Permutation.
    apply NoDup_Permutation; [apply NoDup_fst_map_to_list..|].
    intros k. rewrite !list_elem_of_fmap. split.
    + intros ([k' v] & -> & Hv%elem_of_map_to_list). simpl.
      rewrite lookup_insert in Hv. case_decide; simplify_eq.
      * exists (k', l). split; [done|]. by apply elem_of_map_to_list.
      * exists (k', v). split; [done|]. by apply elem_of_map_to_list.
    + intros ([k' v] & -> & Hv%elem_of_map_to_list). simpl.
      destruct (decide (p = k')) as [->|Hne].
      * exists (k', l'). split; [done|].
        apply elem_of_map_to_list. by rewrite lookup_insert_eq.
      * exists (k', v). split; [done|].
        apply elem_of_map_to_list. by rewrite lookup_insert_ne.
Qed.

Lemma NoDup_sortedKeys (w : gmap Z (list Participant)) :
  NoDup (merge_sort Z.le (fst <$> map_to_list w)).
Proof. rewrite merge_sort_Permutation. apply NoDup_fst_map_to_list. Qed.

(** Changing one id, or one name, of one winner changes the stream. *)
Lemma winnersStream_single_field (w : gmap Z (list Participant)) p l1 x l2 x' :
  w !! p = Some (l1 ++ x :: l2) →
  (ID x' ≠ ID x ∧ Name x' = Name x) ∨ (ID x' = ID x ∧ Name x' ≠ Name x) →
  winnersStream (<[p := l1 ++ x' :: l2]> w) ≠ winnersStream w.
Proof.
  intros Hp Hx Heq. unfold winnersStream in Heq.
  rewrite (sortedKeys_insert w p _ _ Hp) in Heq.
  pose proof (NoDup_sortedKeys w) as Hnd.
  assert (Hin : p ∈ merge_sort Z.le (fst <$> map_to_list w)).
  { rewrite merge_sort_Permutation. apply list_elem_of_fmap.
    exists (p, l1 ++ x :: l2). split; [done|]. by apply elem_of_map_to_list. }
  apply list_elem_of_split in Hin as (k1 & k2 & Hks). rewrite Hks in Heq, Hnd.
  apply NoDup_app in Hnd as (_ & Hk1 & [Hk2 _]%NoDup_cons).
  assert (Hsame : ∀ ks : list Z, p ∉ ks →
            prizeBytes (<[p := l1 ++ x' :: l2]> w) <$> ks = prizeBytes w <$> ks).
  { intros ks Hn. apply list_fmap_ext. intros i k Hk. unfold prizeBytes.
    rewrite lookup_total_insert_ne; [done|].
    intros ->. apply Hn. by eapply list_elem_of_lookup_2. }
  rewrite !fmap_app, !fmap_cons, !concat_app, !concat_cons in Heq.
  rewrite (Hsame k1), (Hsame k2) in Heq by set_solver.
  apply app_inv_head, app_inv_tail in Heq. unfold prizeBytes in Heq.
  rewrite lookup_total_insert_eq, (lookup_total_Some _ _ _ Hp) in Heq.
  apply app_inv_head in Heq.
  rewrite !fmap_app, !fmap_cons, !concat_app, !concat_cons in Heq.
  apply app_inv_head, app_inv_tail in Heq. unfold winnerBytes in Heq.
  destruct Hx as [[Hid Hnm]|[Hid Hnm]].
  - rewrite Hnm in Heq. apply app_inv_tail, bytes_inj in Heq. done.
  - rewrite Hid in Heq. apply app_inv_head, bytes_inj in Heq. done.
Qed.

(** C5, as stated, fails.  The hash is fed the ids and names one after
    the other, with nothing between them: the winner with id [ab] and
    name [c] and the winner with id [a] and name [bc] feed it the same
    bytes.  The saved record with the winner so modified, its checksum
    unchanged, is accepted by [Load]; the two winners maps differ in a
    winner's id and name and have the same checksum. *)
Lemma tamper_detection_counterexample :
  sdWinners demo_saved = Some (<[1 := [mkParticipant "ab" "c"]]> ∅) ∧
  sdWinners demo_moved = Some (<[1 := [mkParticipant "a" "bc"]]> ∅) ∧
  sdChecksum demo_moved = sdChecksum demo_saved ∧
  (Load (New "demo") (ReadOk demo_moved)).2 = None ∧
  winners (Load (New "demo") (ReadOk demo_moved)).1 !! 1
  = Some [mkParticipant "a" "bc"] ∧
  computeWinnersHash (<[1 := [mkParticipant "a" "bc"]]> ∅)
  = computeWinnersHash (<[1 := [mkParticipant "ab" "c"]]> ∅).
Proof.
  split; [vm_compute; reflexivity|].
  split; [vm_compute; reflexivity|].
  split; [reflexivity|].
  split; [vm_compute; reflexivity|].
  split; [vm_compute; reflexivity|].
  vm_compute. reflexivity.
Qed.

(** C5, amended.  The checksum is the MD5 digest of one byte stream: for
    each prize number in ascending order, its decimal numeral, then each
    winner's id, then name, nothing in between.  [Load] on a saved record
    whose winners were modified fails with [ErrChecksum], leaving the
    session as it was, whenever the checksum of the modified winners
    differs from the stored one, and accepts the record whenever the
    modification leaves the stream as it was.  A modification of exactly
    one id, or of exactly one name, changes the stream. *)
Theorem tamper_detection :
  (∀ w, computeWinnersHash w = MD5.sum (winnersStream w)) ∧
  (∀ d0 tm w' d,
     sprintfX (computeWinnersHash w')
     ≠ sprintfX (computeWinnersHash (winners d0)) →
     Load d (ReadOk (withWinners (Save d0 tm) w')) = (d, Some ErrChecksum)) ∧
  (∀ d0 tm w' d,
     winnersStream w' = winnersStream (winners d0) →
     Load d (ReadOk (withWinners (Save d0 tm) w'))
     = (mkLottery (name d) (prizes d0) (participants d0) w', None)) ∧
  (∀ (w : gmap Z (list Participant)) p l1 x l2 x',
     w !! p = Some (l1 ++ x :: l2) →
     (ID x' ≠ ID x ∧ Name x' = Name x) ∨ (ID x' = ID x ∧ Name x' ≠ Name x) →
     winnersStream (<[p := l1 ++ x' :: l2]> w) ≠ winnersStream w).
Proof.
  split_and!.
  - apply computeWinnersHash_stream.
  - intros d0 tm w' d Hne. by apply Load_rejects.
  - intros d0 tm w' d Heq. apply Load_accepts. simpl.
    by rewrite !computeWinnersHash_stream, Heq.
  - apply winnersStream_single_field.
Qed.

Lemma tamper_detection_witness :
  Load (New "demo")
       (ReadOk (withWinners (Save demo_d2 demo_time)
                  (<[1 := [demo_B; mkParticipant "a" "Al"]]> ∅)))
  = (New "demo", Some ErrChecksum) ∧
  winnersStream (<[1 := [demo_B] ++ mkParticipant "a" "Al" :: []]>
                   (winners demo_d2))
  ≠ winnersStream (winners demo_d2).
Proof.
  destruct tamper_detection as (_ & H2 & _ & H4). split.
  - apply H2. vm_compute. intros [=].
  - apply (H4 (winners demo_d2) 1 [demo_B] demo_A [] (mkParticipant "a" "Al")).
    + vm_compute. reflexivity.
    + right. split; [reflexivity|]. vm_compute. intros [=].
Defined.

(** ** Bulk loading of prizes *)

(** What [strconv.Atoi] refuses, it refuses with a [NumError]. *)
Lemma Atoi_error s e : Atoi s = inl e → ∃ k, e = NumError "Atoi" s k.
Proof. unfold Atoi. destruct (ParseInt s); intros [= <-]. eauto. Qed.

Lemma parseUintLoop_non_digit cs n c :
  c ∈ cs → isDigit c = false → ∃ e, parseUintLoop cs n = inl e.
Proof.
  revert n. induction cs as [|c' cs IH]; intros n Hc Hd.
  - by apply elem_of_nil in Hc.
  - simpl. destruct (isDigit c') eqn:Hc'; [|eauto].
    apply elem_of_cons in Hc as [->|Hc]; [congruence|].
    destruct (n >=? _); [eauto|]. destruct (_ >? _); [eauto|]. by apply IH.
Qed.

(** A numeral with a character that is no decimal digit, or with no
    digit at all, is refused. *)
Lemma Atoi_non_numeric s :
  (numeral s = [] ∨ ∃ c, c ∈ numeral s ∧ isDigit c = false) →
  ∃ k, Atoi s = inl (NumError "Atoi" s k).
Proof.
  unfold Atoi, ParseInt, numeral.
  destruct (list_ascii_of_string s) as [|c cs]; [by eauto|]. cbv zeta.
  destruct (Ascii.eqb c "-" || Ascii.eqb c "+") eqn:Hsign; cbv iota.
  - intros [-> | (c' & Hc' & Hd)]; [by eauto|].
    destruct cs as [|c1 cs1]; [by eauto|].
    destruct (parseUintLoop_non_digit (c1 :: cs1) 0 c' Hc' Hd) as [e ->].
    eauto.
  - intros [? | (c' & Hc' & Hd)]; [done|].
    destruct (parseUintLoop_non_digit (c :: cs) 0 c' Hc' Hd) as [e ->].
    eauto.
Qed.

Lemma loadPrizeRows_good pre ps rest m :
  Forall2 (λ row p, rowPrize row = Some p) pre ps →
  loadPrizeRows (pre ++ rest) m
  = loadPrizeRows rest (foldl (fun m p => <[No p := p]> m) m ps).
Proof.
  intros Hpre. revert m. induction Hpre as [|row p pre ps Hrow _ IH]; intros m.
  - done.
  - simpl. unfold rowPrize in Hrow.
    destruct row as [|c0 [|c1 [|c2 [|c3 [|? ?]]]]]; try done.
    destruct (Atoi (Trim c0)) as [?|no]; [done|].
    destruct (Atoi (Trim c2)) as [?|amount]; [done|].
    injection Hrow as <-. simpl. apply IH.
Qed.

(** C8.  [LoadPrizesCSV] empties the prizes map, skips the header and
    takes the data rows in order.  At the first row that does not have
    four fields it returns [ErrParticipantsCSV]; at the first row whose
    number or amount [strconv.Atoi] refuses (any numeral with a character
    that is no digit) it returns that [NumError].  Either way the prizes
    map then holds exactly the prizes of the rows before the failing
    one: neither the map from before the call nor any later row;
    participants and winners are untouched. *)
Theorem LoadPrizesCSV_partial d hdr pre ps bad post :
  Forall2 (λ row p, rowPrize row = Some p) pre ps →
  (length bad ≠ 4%nat →
     LoadPrizesCSV d (ReadOk (hdr :: pre ++ bad :: post))
     = (mkLottery (name d) (insertPrizes ps) (participants d) (winners d),
        Some ErrParticipantsCSV)) ∧
  (∀ c0 c1 c2 c3 e,
     bad = [c0; c1; c2; c3] →
     Atoi (Trim c0) = inl e
     ∨ (∃ no, Atoi (Trim c0) = inr no) ∧ Atoi (Trim c2) = inl e →
     (∃ num k, e = NumError "Atoi" num k) ∧
     LoadPrizesCSV d (ReadOk (hdr :: pre ++ bad :: post))
     = (mkLottery (name d) (insertPrizes ps) (participants d) (winners d),
        Some e)) ∧
  (∀ s, (numeral s = [] ∨ ∃ c, c ∈ numeral s ∧ isDigit c = false) →
        ∃ k, Atoi s = inl (NumError "Atoi" s k)).
Proof.
  intros Hpre. unfold LoadPrizesCSV. simpl. rewrite drop_0.
  rewrite (loadPrizeRows_good pre ps (bad :: post) ∅ Hpre).
  fold (insertPrizes ps). split_and!.
  - intros Hlen. simpl.
    by destruct bad as [|c0 [|c1 [|c2 [|c3 [|? ?]]]]].
  - intros c0 c1 c2 c3 e -> He. split.
    + destruct He as [He|[_ He]]; apply Atoi_error in He as [k ->]; eauto.
    + simpl. destruct He as [->|[[no ->] ->]]; done.
  - apply Atoi_non_numeric.
Qed.

Lemma LoadPrizesCSV_partial_witness :
  LoadPrizesCSV demo_d2 (ReadOk demo_short_rows)
  = (mkLottery (name demo_d2) ∅ (participants demo_d2) (winners demo_d2),
     Some ErrParticipantsCSV) ∧
  LoadPrizesCSV demo_d2 (ReadOk demo_prize_rows)
  = (mkLottery (name demo_d2) (insertPrizes [mkPrize 7 "x" 2 "d"])
               (participants demo_d2) (winners demo_d2),
     Some (NumError "Atoi" "z" ErrSyntax)).
Proof.
  split.
  - apply (proj1 (LoadPrizesCSV_partial demo_d2
                    ["no"; "name"; "amount"]%string [] []
                    ["7"; "x"; "2"]%string [["8"; "y"; "3"]%string]
                    ltac:(constructor))).
    simpl. lia.
  - apply (proj1 (proj2 (LoadPrizesCSV_partial demo_d2
                    ["no"; "name"; "amount"; "desc"]%string
                    [[" 7"; "x"; "2 "; "d"]%string] [mkPrize 7 "x" 2 "d"]
                    ["8"; "y"; "z"; "d"]%string [["9"; "y"; "3"; "d"]%string]
                    ltac:(repeat constructor)))
                  "8" "y" "z" "d"%string).
    + reflexivity.
    + right. split; [by exists 8 | reflexivity].
Defined.

(** ** The scenarios of the specification *)

(** A prize of two slots and three participants: [Draw] returns two of
    them and the third remains available. *)
Example scenario_draw :
  (Draw [] [2; 1]%nat demo_d1 1).2 = ([demo_B; demo_A], None) ∧
  AvailableParticipants [] demo_d2 1 = [demo_C].
Proof. split; vm_compute; reflexivity. Qed.

(** A second [Draw] on the prize fails and leaves the winners alone. *)
Example scenario_draw_twice :
  Draw [] [0]%nat demo_d2 1 = (demo_d2, ([], Some ErrWinnersExistBeforeDraw)).
Proof. vm_compute. reflexivity. Qed.

(** Revoking Ann succeeds and leaves Bob; revoking Ann again fails. *)
Example scenario_revoke :
  (Revoke [] demo_d2 1 [demo_A]).2 = None ∧
  Winners (Revoke [] demo_d2 1 [demo_A]).1 1 = [demo_B] ∧
  (Revoke [] (Revoke [] demo_d2 1 [demo_A]).1 1 [demo_A]).2
  = Some ErrRevokedWinnerNotMatch.
Proof. split_and!; vm_compute; reflexivity. Qed.

(** With one free slot a redraw of two fails and a redraw of one
    succeeds. *)
Example scenario_redraw :
  (Redraw [] [0]%nat (Revoke [] demo_d2 1 [demo_A]).1 1 2).2
  = ([], Some ErrRedrawPrizeAmount) ∧
  (Redraw [] [0]%nat (Revoke [] demo_d2 1 [demo_A]).1 1 1).2
  = ([demo_C], None) ∧
  Winners (Redraw [] [0]%nat (Revoke [] demo_d2 1 [demo_A]).1 1 1).1 1
  = [demo_B; demo_C].
Proof. split_and!; vm_compute; reflexivity. Qed.

(** * Further properties of the code *)

(** ** Listing the prizes *)

Lemma StronglySorted_strict (l : list Z) :
  StronglySorted Z.le l → NoDup l → StronglySorted Z.lt l.
Proof.
  induction 1 as [|x l Hs IH Hx]; intros Hnd; [constructor|].
  apply NoDup_cons in Hnd as [Hn Hnd]. constructor; [by apply IH|].
  apply Forall_forall. intros y Hy.
  rewrite Forall_forall in Hx. specialize (Hx y Hy).
  assert (x ≠ y) by (by intros ->). lia.
Qed.

Lemma StronglySorted_rev_lt (R : relation Z) (l : list Z) :
  (∀ x y, x < y → R y x) →
  StronglySorted Z.lt l → StronglySorted R (rev l).
Proof.
  intros HR. induction 1 as [|x l Hs IH Hx]; [constructor|].
  simpl. apply StronglySorted_app_2; [|done | repeat constructor].
  intros y z Hy%list_elem_of_In%in_rev%list_elem_of_In
    Hz%list_elem_of_singleton. subst z.
  rewrite Forall_forall in Hx. apply HR, Hx, Hy.
Qed.

(** The keys as [prizeMapToSlice] orders them. *)
Lemma sortedKeys_le {V} (m : gmap Z V) :
  StronglySorted Z.lt (merge_sort Z.le (fst <$> map_to_list m)).
Proof.
  apply StronglySorted_strict.
  - apply StronglySorted_merge_sort; apply _.
  - rewrite merge_sort_Permutation. apply NoDup_fst_map_to_list.
Qed.

Lemma sortedKeys_ge {V} (m : gmap Z V) :
  merge_sort Z.ge (fst <$> map_to_list m)
  = rev (merge_sort Z.le (fst <$> map_to_list m)).
Proof.
  apply (StronglySorted_unique_strong Z.ge).
  - intros x y _ _ ? ?. lia.
  - apply StronglySorted_merge_sort.
    + intros x y z. lia.
    + intros x y. lia.
  - apply StronglySorted_rev_lt; [intros x y; lia | apply sortedKeys_le].
  - rewrite <- Permutation_rev. by rewrite !merge_sort_Permutation.
Qed.

Lemma prizeMapToSlice_keys (m : gmap Z Prize) (ks : list Z) :
  (∀ k, k ∈ ks → is_Some (m !! k)) →
  Forall2 (λ k p, m !! k = Some p) ks ((λ prizeNo, m !!! prizeNo) <$> ks).
Proof.
  intros Hks. apply Forall2_fmap_r, Forall_Forall2_diag, Forall_forall.
  intros k Hk. destruct (Hks k Hk) as [p Hp]. simpl.
  by rewrite (lookup_total_Some _ _ _ Hp).
Qed.

Lemma elem_of_keys {V} (m : gmap Z V) k :
  k ∈ fst <$> map_to_list m ↔ is_Some (m !! k).
Proof.
  rewrite list_elem_of_fmap. split.
  - intros ([k' v] & -> & Hv%elem_of_map_to_list). eauto.
  - intros [v Hv]. exists (k, v). split; [done|]. by apply elem_of_map_to_list.
Qed.

(** X1.  [prizeMapToSlice] lists every prize of the map exactly once, in
    strictly ascending order of the prize numbers they are registered
    under, or in strictly descending order when [descOrder] is set; an
    empty map gives an empty slice. *)
Theorem prizeMapToSlice_sorted m descOrder :
  ∃ ks,
    Forall2 (λ k p, m !! k = Some p) ks (prizeMapToSlice m descOrder) ∧
    (∀ k, is_Some (m !! k) → k ∈ ks) ∧
    StronglySorted (if descOrder then Z.gt else Z.lt) ks ∧
    length (prizeMapToSlice m descOrder) = size m.
Proof.
  unfold prizeMapToSlice. destruct descOrder.
  - exists (merge_sort Z.ge (fst <$> map_to_list m)). split_and!.
    + apply prizeMapToSlice_keys. intros k.
      by rewrite merge_sort_Permutation, elem_of_keys.
    + intros k. by rewrite merge_sort_Permutation, elem_of_keys.
    + rewrite sortedKeys_ge.
      apply StronglySorted_rev_lt; [intros x y; lia | apply sortedKeys_le].
    + by rewrite length_fmap, merge_sort_Permutation, length_fmap,
        length_map_to_list.
  - exists (merge_sort Z.le (fst <$> map_to_list m)). split_and!.
    + apply prizeMapToSlice_keys. intros k.
      by rewrite merge_sort_Permutation, elem_of_keys.
    + intros k. by rewrite merge_sort_Permutation, elem_of_keys.
    + apply sortedKeys_le.
    + by rewrite length_fmap, merge_sort_Permutation, length_fmap,
        length_map_to_list.
Qed.

(** X2.  The descending listing of the prizes is the ascending one
    reversed. *)
Theorem Prizes_descending_reverses d :
  Prizes d true = rev (Prizes d false).
Proof.
  unfold Prizes, prizeMapToSlice. rewrite sortedKeys_ge.
  by rewrite <- map_rev.
Qed.

(** ** What the winner operations leave alone *)

Lemma Revoke_frame ord d prizeNo rs :
  name (Revoke ord d prizeNo rs).1 = name d ∧
  prizes (Revoke ord d prizeNo rs).1 = prizes d ∧
  participants (Revoke ord d prizeNo rs).1 = participants d.
Proof.
  destruct (Revoke ord d prizeNo rs) as [d' [e|]] eqn:E.
  - pose proof (Revoke_failure_unchanged ord d prizeNo rs) as H.
    rewrite E in H. simpl in *. by rewrite H.
  - by apply Revoke_success_inv in E as (ws & m & _ & _ & ->).
Qed.

Lemma Redraw_frame ord rnd d prizeNo amount :
  name (Redraw ord rnd d prizeNo amount).1 = name d ∧
  prizes (Redraw ord rnd d prizeNo amount).1 = prizes d ∧
  participants (Redraw ord rnd d prizeNo amount).1 = participants d.
Proof.
  destruct (Redraw ord rnd d prizeNo amount) as [d' [new [e|]]] eqn:E.
  - pose proof (Redraw_failure_unchanged ord rnd d prizeNo amount) as H.
    rewrite E in H. simpl in *. by rewrite H.
  - by apply Redraw_success_inv in E as (pz & ws & _ & _ & _ & _ & -> & _).
Qed.

Lemma step_name d o : name (step d o) = name d.
Proof.
  destruct o as [no nm amount desc|r|r|ord rnd p|ord p rs|ord rnd p a|p| |r];
    simpl; try done.
  - by destruct (LoadPrizesCSV_frame d r) as (-> & _).
  - by destruct (LoadParticipantsCSV_frame d r) as (-> & _).
  - by destruct (Draw_frame ord rnd d p) as (_ & _ & ->).
  - by destruct (Revoke_frame ord d p rs) as (-> & _).
  - by destruct (Redraw_frame ord rnd d p a) as (-> & _).
  - unfold Load. destruct r as [e|data]; [done|]. by destruct (decide _).
Qed.

(** X3.  No operation renames a session: after any sequence of public
    operations the session has the name it was created with.  [Load] in
    particular keeps the name of the session that loads, whatever name
    the record carries. *)
Theorem name_never_changes nm ops : name (run (New nm) ops) = nm.
Proof.
  change nm with (name (New nm)) at 2. generalize (New nm). intros d.
  revert d. induction ops as [|o ops IH]; intros d; [done|].
  simpl. by rewrite IH, step_name.
Qed.

(** ** Prizes are registered under their numbers *)

Lemma loadPrizeRows_keyedByNo rows m :
  keyedByNo m → keyedByNo (loadPrizeRows rows m).1.
Proof.
  revert m. induction rows as [|row rows IH]; intros m Hm; [done|].
  simpl. destruct row as [|c0 [|c1 [|c2 [|c3 [|? ?]]]]]; try done.
  destruct (Atoi (Trim c0)) as [?|no]; [done|].
  destruct (Atoi (Trim c2)) as [?|amount]; [done|].
  apply IH. by apply map_Forall_insert_2.
Qed.

Lemma step_keyedByNo d o :
  noLoad o = true → keyedByNo (prizes d) → keyedByNo (prizes (step d o)).
Proof.
  intros Ho Hk.
  destruct o as [no nm amount desc|r|r|ord rnd p|ord p rs|ord rnd p a|p| |r];
    simpl; try done.
  - by apply map_Forall_insert_2.
  - unfold LoadPrizesCSV. destruct r as [e|rows]; [done|].
    pose proof (loadPrizeRows_keyedByNo (drop 1 rows) ∅) as H.
    destruct (loadPrizeRows _ _) as [m err]. simpl in *.
    apply H, map_Forall_empty.
  - by destruct (LoadParticipantsCSV_frame d r) as (_ & -> & _).
  - by destruct (Draw_frame ord rnd d p) as (-> & _).
  - by destruct (Revoke_frame ord d p rs) as (_ & -> & _).
  - by destruct (Redraw_frame ord rnd d p a) as (_ & -> & _).
Qed.

Lemma run_keyedByNo d ops :
  forallb noLoad ops = true → keyedByNo (prizes d) →
  keyedByNo (prizes (run d ops)).
Proof.
  revert d. induction ops as [|o ops IH]; intros d Hops Hd; [done|].
  simpl in Hops. apply andb_prop in Hops as [Ho Hops].
  simpl. by apply IH, step_keyedByNo.
Qed.

Lemma sorted_by_No (m : gmap Z Prize) (ks : list Z) :
  keyedByNo m → (∀ k, k ∈ ks → is_Some (m !! k)) →
  StronglySorted Z.lt ks →
  StronglySorted (λ p q, No p < No q) ((λ prizeNo, m !!! prizeNo) <$> ks).
Proof.
  intros Hk Hks Hs.
  assert (HNo : ∀ k, k ∈ ks → No (m !!! k) = k).
  { intros k [p Hp]%Hks. rewrite (lookup_total_Some _ _ _ Hp). by apply Hk in Hp. }
  clear Hks. induction Hs as [|k ks Hs IH Hx]; [constructor|].
  rewrite fmap_cons. constructor.
  - apply IH. intros k' Hk'. apply HNo. by right.
  - apply Forall_fmap, Forall_forall. intros k' Hk'. simpl.
    rewrite Forall_forall in Hx.
    rewrite !HNo by (by left || by right). by apply Hx.
Qed.

(** X4.  In a session that was never loaded from a record, every prize is
    registered under its own number (whether set by [SetPrize] or read
    by [LoadPrizesCSV], even by a load that failed half way), so
    [Prizes(false)] lists the prizes in strictly ascending order of their
    [No] field. *)
Theorem prizes_keyed_by_number nm ops :
  forallb noLoad ops = true →
  (∀ no p, prizes (run (New nm) ops) !! no = Some p → No p = no) ∧
  StronglySorted (λ p q, No p < No q) (Prizes (run (New nm) ops) false).
Proof.
  intros Hops.
  assert (Hk : keyedByNo (prizes (run (New nm) ops))).
  { apply run_keyedByNo; [done|]. apply map_Forall_empty. }
  split; [exact Hk|]. unfold Prizes, prizeMapToSlice.
  apply sorted_by_No; [done| |apply sortedKeys_le].
  intros k. by rewrite merge_sort_Permutation, elem_of_keys.
Qed.

Lemma prizes_keyed_by_number_witness :
  StronglySorted (λ p q, No p < No q)
    (Prizes (run (New "demo")
               [ OpSetPrize 9 "last" 1 ""; OpLoadPrizesCSV (ReadOk demo_prize_rows);
                 OpSetPrize 2 "second" 1 ""; OpSetPrize 1 "first" 3 "" ])
            false).
Proof.
  apply (proj2 (prizes_keyed_by_number "demo"
                  [ OpSetPrize 9 "last" 1 "";
                    OpLoadPrizesCSV (ReadOk demo_prize_rows);
                    OpSetPrize 2 "second" 1 ""; OpSetPrize 1 "first" 3 "" ]
                  eq_refl)).
Defined.

(** ** Removing a candidate, and what [draw] can return *)

(** X5.  [removeParticipant] returns the slice as it is for an index out
    of range (negative, or not below the length; any index on an empty
    slice).  For an index in range the result is one shorter and holds
    the other elements: the last element has taken the place of the
    removed one, every other position below the new length is as it
    was. *)
Theorem removeParticipant_contract s i :
  (i < 0 ∨ Z.of_nat (length s) ≤ i → removeParticipant s i = s) ∧
  (0 ≤ i < Z.of_nat (length s) →
   ∃ p, s !! Z.to_nat i = Some p ∧
        p :: removeParticipant s i ≡ₚ s ∧
        S (length (removeParticipant s i)) = length s ∧
        (∀ j, (S j < length s)%nat → j ≠ Z.to_nat i →
              removeParticipant s i !! j = s !! j) ∧
        (i < Z.of_nat (length s) - 1 →
         removeParticipant s i !! Z.to_nat i = s !! pred (length s))).
Proof.
  split.
  - intros Hi. unfold removeParticipant.
    destruct (Z.leb_spec (Z.of_nat (length s)) 0); [done|].
    destruct (Z.ltb_spec i 0); [done|].
    destruct (Z.gtb_spec i (Z.of_nat (length s) - 1)); [done|]. lia.
  - intros Hi.
    destruct (lookup_lt_is_Some_2 s (Z.to_nat i)) as [p Hp]; [lia|].
    exists p. split; [done|].
    pose proof (removeParticipant_perm s (Z.to_nat i) p Hp) as Hperm.
    pose proof (removeParticipant_length s (Z.to_nat i) p Hp) as Hlen.
    rewrite Z2Nat.id in Hperm, Hlen by lia. split_and!; [done..| |].
    + intros j Hj Hne. unfold removeParticipant.
      destruct (Z.leb_spec (Z.of_nat (length s)) 0); [lia|].
      destruct (Z.ltb_spec i 0); [lia|].
      destruct (Z.gtb_spec i (Z.of_nat (length s) - 1)); [lia|]. cbn [orb].
      replace (Z.to_nat (Z.of_nat (length s) - 1)) with (pred (length s))
        by lia.
      destruct (s !! pred (length s)) as [x|] eqn:Hx.
      2:{ apply lookup_ge_None in Hx. lia. }
      rewrite lookup_take_lt by lia. by rewrite list_lookup_insert_ne.
    + intros Hlt. unfold removeParticipant.
      destruct (Z.leb_spec (Z.of_nat (length s)) 0); [lia|].
      destruct (Z.ltb_spec i 0); [lia|].
      destruct (Z.gtb_spec i (Z.of_nat (length s) - 1)); [lia|]. cbn [orb].
      replace (Z.to_nat (Z.of_nat (length s) - 1)) with (pred (length s))
        by lia.
      destruct (s !! pred (length s)) as [x|] eqn:Hx.
      2:{ apply lookup_ge_None in Hx. lia. }
      rewrite lookup_take_lt by lia. rewrite list_lookup_insert_eq by lia.
      done.
Qed.

Lemma removeParticipant_contract_witness :
  removeParticipant [demo_A; demo_B; demo_C] 3 = [demo_A; demo_B; demo_C] ∧
  ∃ p, [demo_A; demo_B; demo_C] !! Z.to_nat 0 = Some p ∧
       p :: removeParticipant [demo_A; demo_B; demo_C] 0
       ≡ₚ [demo_A; demo_B; demo_C].
Proof.
  destruct (removeParticipant_contract [demo_A; demo_B; demo_C] 3) as [H _].
  destruct (removeParticipant_contract [demo_A; demo_B; demo_C] 0) as [_ H0].
  split.
  - apply H. simpl. lia.
  - destruct H0 as (p & Hp & Hperm & _); [simpl; lia|].
    exists p. split; [exact Hp | exact Hperm].
Defined.

(** X6.  [draw] returns nobody for a non-positive amount or an empty slice
    of candidates, and returns every candidate, each once, when the
    amount is at least their number; in neither case does it panic. *)
Theorem draw_edges rnd prizeAmount ps :
  (prizeAmount ≤ 0 ∨ ps = [] → draw rnd prizeAmount ps = Some []) ∧
  (Z.of_nat (length ps) ≤ prizeAmount →
   ∃ ws, draw rnd prizeAmount ps = Some ws ∧ ws ≡ₚ ps).
Proof.
  split.
  - intros H. unfold draw.
    destruct (Z.leb_spec prizeAmount 0); [done|].
    destruct H as [?| ->]; [lia|]. done.
  - intros Hle.
    destruct (draw_spec rnd prizeAmount ps) as (ws & Hd & Hlen & Hsub).
    exists ws. split; [done|].
    apply submseteq_length_Permutation; [done|]. lia.
Qed.

Lemma draw_edges_witness :
  draw [5; 7]%nat 0 [demo_A; demo_B] = Some [] ∧
  ∃ ws, draw [5; 7]%nat 4 [demo_A; demo_B] = Some ws ∧
        ws ≡ₚ [demo_A; demo_B].
Proof.
  destruct (draw_edges [5; 7]%nat 0 [demo_A; demo_B]) as [H _].
  destruct (draw_edges [5; 7]%nat 4 [demo_A; demo_B]) as [_ H4].
  split; [apply H; left; lia | apply H4; simpl; lia].
Defined.

Lemma drawLoop_complete ws ps acc :
  ws ⊆+ ps → ∃ rnd, drawLoop (length ws) rnd ps acc = Some (acc ++ ws).
Proof.
  revert ps acc. induction ws as [|x ws IH]; intros ps acc Hsub.
  - exists []. by rewrite app_nil_r.
  - apply submseteq_cons_l in Hsub as (k' & Hps & Hws).
    assert (Hx : x ∈ ps) by (rewrite Hps; left).
    apply list_elem_of_lookup in Hx as [i Hi].
    assert (Hlt : (i < length ps)%nat) by (by eapply lookup_lt_Some).
    assert (Hrest : ws ⊆+ removeParticipant ps (Z.of_nat i)).
    { rewrite Hws. apply Permutation_submseteq.
      apply (Permutation_cons_inv (a := x)).
      rewrite <- Hps. symmetry. by apply removeParticipant_perm. }
    destruct (IH _ (acc ++ [x]) Hrest) as [rnd Hrnd].
    exists (i :: rnd). cbn [drawLoop length hd tl]. unfold Intn.
    destruct (Z.leb_spec (Z.of_nat (length ps)) 0); [lia|].
    cbn [mbind option_bind]. rewrite Z.mod_small by lia.
    rewrite Nat2Z.id, Hi. cbn [mbind option_bind].
    by rewrite Hrnd, <- app_assoc.
Qed.

(** X7.  [draw] leaves no outcome out: for a positive amount, every
    selection of [min(amount, n)] of the [n] candidates, each taken at
    most as often as it is listed, in any order, is what [draw] returns
    for some random numbers. *)
Theorem draw_complete prizeAmount ps ws :
  0 < prizeAmount → ws ⊆+ ps →
  Z.of_nat (length ws) = Z.min prizeAmount (Z.of_nat (length ps)) →
  ∃ rnd, draw rnd prizeAmount ps = Some ws.
Proof.
  intros Ha Hsub Hlen. unfold draw.
  destruct (Z.leb_spec prizeAmount 0); [lia|]. cbn [orb].
  destruct (Z.leb_spec (Z.of_nat (length ps)) 0) as [Hl|Hl].
  - exists []. f_equal. symmetry. apply nil_length_inv. lia.
  - destruct (drawLoop_complete ws ps [] Hsub) as [rnd Hrnd].
    exists rnd.
    replace (Z.to_nat _) with (length ws); [done|].
    destruct (Z.ltb_spec (Z.of_nat (length ps)) prizeAmount); lia.
Qed.

Lemma draw_complete_witness :
  ∃ rnd, draw rnd 2 [demo_A; demo_B; demo_C] = Some [demo_C; demo_A].
Proof.
  apply draw_complete.
  - lia.
  - apply (bool_decide_unpack _). vm_compute. exact I.
  - reflexivity.
Defined.

(** ** The pool of available participants along the operations *)

Lemma winnerIDs_insert (W : gmap Z (list Participant)) p l k :
  k ∈ winnerIDs (<[p := l]> W) ↔
  k ∈ ID <$> l ∨ ∃ q l' w, q ≠ p ∧ W !! q = Some l' ∧ w ∈ l' ∧ ID w = k.
Proof.
  rewrite elem_of_winnerIDs. split.
  - intros (q & l' & w & Hq & Hw & <-). rewrite lookup_insert in Hq.
    case_decide; simplify_eq.
    + left. by apply list_elem_of_fmap_2.
    + right. by exists q, l', w.
  - intros [(w & -> & Hw)%list_elem_of_fmap | (q & l' & w & Hne & Hq & Hw & <-)].
    + exists p, l, w. by rewrite lookup_insert_eq.
    + exists q, l', w. by rewrite lookup_insert_ne.
Qed.

Lemma Draw_success_guards ord rnd d prizeNo d' ws :
  Draw ord rnd d prizeNo = (d', (ws, None)) →
  ∃ pz, prizes d !! prizeNo = Some pz ∧ 1 ≤ Amount pz ∧
        winners d !! prizeNo = None ∧
        d' = with_winners d (<[prizeNo := ws]> (winners d)) ∧
        ws ⊆+ availableParticipants ord d prizeNo ∧
        length ws
        = Z.to_nat (Z.min (Amount pz)
                   (Z.of_nat (length (availableParticipants ord d prizeNo)))) ∧
        length (availableParticipants ord d prizeNo) ≠ 0%nat.
Proof.
  unfold Draw.
  destruct (prizes d !! prizeNo) as [pz|] eqn:Hp; [|done].
  rewrite (lookup_total_Some _ _ _ Hp).
  destruct (Z.ltb_spec (Amount pz) 1); [done|].
  destruct (winners d !! prizeNo); [done|].
  destruct (decide _); [done|].
  destruct (draw_spec rnd (Amount pz) (availableParticipants ord d prizeNo))
    as (ws' & -> & Hlen & Hsub).
  intros [= <- <-]. exists pz. split_and!; try done; lia.
Qed.

(** X8.  [Draw] rejects a repetition: once [Draw] on a prize has
    succeeded, a second [Draw] on the same prize, whatever the iteration
    order and the random numbers, fails with [ErrWinnersExistBeforeDraw]
    and leaves the winners as the first one set them. *)
Theorem Draw_twice_rejected ord rnd ord' rnd' d prizeNo d' ws :
  Draw ord rnd d prizeNo = (d', (ws, None)) →
  Draw ord' rnd' d' prizeNo = (d', ([], Some ErrWinnersExistBeforeDraw)) ∧
  winners d' !! prizeNo = Some ws.
Proof.
  intros (pz & Hp & Ha & _ & -> & _)%Draw_success_guards.
  split; [|by apply lookup_insert_eq].
  eapply Draw_already; [done..|]. simpl. rewrite lookup_insert_eq. eauto.
Qed.

Lemma Draw_twice_rejected_witness :
  Draw [1]%nat [0; 0]%nat demo_d2 1
  = (demo_d2, ([], Some ErrWinnersExistBeforeDraw)).
Proof.
  apply (proj1 (Draw_twice_rejected [] [2; 1]%nat [1]%nat [0; 0]%nat
                  demo_d1 1 demo_d2 [demo_B; demo_A]
                  ltac:(vm_compute; reflexivity))).
Defined.

Lemma registered_inj d x y :
  keyedByID (participants d) →
  (∃ k, participants d !! k = Some x) → (∃ k, participants d !! k = Some y) →
  ID x = ID y → x = y.
Proof.
  intros Hk [kx Hx] [ky Hy] Heq.
  pose proof (Hk kx x Hx) as H1. pose proof (Hk ky y Hy) as H2.
  simpl in *. congruence.
Qed.

Lemma elem_of_available_keyed ord d prizeNo x :
  keyedByID (participants d) →
  x ∈ availableParticipants ord d prizeNo ↔
  (∃ k, participants d !! k = Some x) ∧ ID x ∉ winnerIDs (winners d).
Proof.
  intros Hk. rewrite elem_of_availableParticipants. split.
  - intros (k & Hx & Hn). rewrite (Hk k x Hx). eauto.
  - intros [[k Hx] Hn]. exists k. split; [done|]. by rewrite <- (Hk k x Hx).
Qed.

(** The pool after a successful [Draw]. *)
Lemma Draw_pool_after ord rnd ord' d prizeNo q d' ws :
  keyedByID (participants d) →
  Draw ord rnd d prizeNo = (d', (ws, None)) →
  (∀ x, x ∈ AvailableParticipants ord' d' q ↔
        x ∈ AvailableParticipants ord' d q ∧ x ∉ ws) ∧
  (length (AvailableParticipants ord' d' q) + length ws
   = length (AvailableParticipants ord' d q))%nat.
Proof.
  intros Hk (pz & _ & _ & Hnone & -> & Hsub & _)%Draw_success_guards.
  unfold AvailableParticipants.
  assert (Hel : ∀ x, x ∈ availableParticipants ord'
                         (with_winners d (<[prizeNo := ws]> (winners d))) q ↔
                     x ∈ availableParticipants ord' d q ∧ x ∉ ws).
  { intros x. rewrite !elem_of_available_keyed by done. simpl.
    rewrite winnerIDs_insert. split.
    - intros [Hreg Hn]. split_and!; [done| |].
      + intros (p' & l & w & Hl & Hw & Hid)%elem_of_winnerIDs. apply Hn.
        right. exists p', l, w. split_and!; try done. congruence.
      + intros Hx. apply Hn. left. by apply list_elem_of_fmap_2.
    - intros [[Hreg Hn] Hx]. split; [done|].
      intros [(y & Hid & Hy)%list_elem_of_fmap | (p' & l & w & _ & Hl & Hw & Hid)].
      + apply Hx. assert (x = y) as ->; [|done].
        eapply registered_inj; [done..| |done].
        eapply elem_of_submseteq in Hy; [|done].
        apply elem_of_availableParticipants in Hy as (k & Hy & _). eauto.
      + apply Hn, elem_of_winnerIDs. by exists p', l, w. }
  split; [done|].
  assert (Hsub' : ws ⊆+ availableParticipants ord' d q).
  { by rewrite (availableParticipants_perm ord' d q),
      <- (availableParticipants_perm ord d prizeNo). }
  apply submseteq_Permutation in Hsub' as [k Hperm].
  assert (Hnd : NoDup (availableParticipants ord' d q)).
  { eapply NoDup_fmap_1. by apply availableParticipants_NoDup. }
  rewrite Hperm, length_app, Nat.add_comm. f_equal.
  apply Permutation_length, NoDup_Permutation.
  - eapply NoDup_fmap_1. by apply availableParticipants_NoDup.
  - rewrite Hperm in Hnd. by apply NoDup_app in Hnd as (_ & _ & ?).
  - intros x. rewrite Hel, Hperm, elem_of_app.
    rewrite Hperm in Hnd. apply NoDup_app in Hnd as (_ & Hdis & _).
    split; [by intros [[?|?] ?] | intros Hx].
    split; [by right|]. intros Hw. by apply (Hdis x).
Qed.

(** X9.  A successful [Draw] takes its winners out of the pool and
    nobody else: where every participant is registered under its own
    id, the participants available afterwards, for any prize, are those
    available before that were not drawn, and they are as many fewer as
    winners were drawn. *)
Theorem Draw_shrinks_pool ord rnd ord' d prizeNo q d' ws :
  keyedByID (participants d) →
  Draw ord rnd d prizeNo = (d', (ws, None)) →
  (∀ x, x ∈ AvailableParticipants ord' d' q ↔
        x ∈ AvailableParticipants ord' d q ∧ x ∉ ws) ∧
  (length (AvailableParticipants ord' d' q) + length ws
   = length (AvailableParticipants ord' d q))%nat.
Proof. apply Draw_pool_after. Qed.

Lemma Draw_shrinks_pool_witness :
  (length (AvailableParticipants [] demo_d2 2) + 2
   = length (AvailableParticipants [] demo_d1 2))%nat.
Proof.
  refine (proj2 (Draw_shrinks_pool [] [2; 1]%nat [] demo_d1 1 2 demo_d2
                   [demo_B; demo_A] _ _)).
  - apply (bool_decide_unpack _). vm_compute. exact I.
  - vm_compute. reflexivity.
Defined.

(** Replacing a prize's winners by some of them frees the others, and
    nobody else, when no id is a winner's twice. *)
Lemma winnerIDs_shrink (W : gmap Z (list Participant)) p ws ws' k :
  winnersDisjoint W → W !! p = Some ws →
  (∀ x, x ∈ ws' → x ∈ ws) →
  k ∈ winnerIDs (<[p := ws']> W) ↔
  k ∈ winnerIDs W ∧ (k ∈ ID <$> ws → k ∈ ID <$> ws').
Proof.
  intros [_ Hdis] Hp Hsub. rewrite winnerIDs_insert, elem_of_winnerIDs. split.
  - intros [(w & -> & Hw)%list_elem_of_fmap | (q & l & w & Hne & Hq & Hw & <-)].
    + split; [|by intros _; apply list_elem_of_fmap_2].
      exists p, ws, w. split_and!; try done. by apply Hsub.
    + split; [by exists q, l, w|].
      intros (y & Hid & Hy)%list_elem_of_fmap. exfalso.
      by apply (Hdis q p l ws w y).
  - intros [(q & l & w & Hq & Hw & <-) Himp].
    destruct (decide (q = p)) as [->|Hne].
    + left. apply Himp. simplify_eq. by apply list_elem_of_fmap_2.
    + right. by exists q, l, w.
Qed.

(** X10.  A successful [Revoke] returns the revoked winners to the pool
    and changes the pool in no other way: in a well-formed session
    (participants registered under their own ids, no id a winner's
    twice) the participants available afterwards are those available
    before and the registered participants whose id was revoked. *)
Theorem Revoke_returns_to_pool ord ord' d prizeNo q rs d' :
  Inv d →
  Revoke ord d prizeNo rs = (d', None) →
  ∀ x, x ∈ AvailableParticipants ord' d' q ↔
       x ∈ AvailableParticipants ord' d q ∨
       ((∃ k, participants d !! k = Some x) ∧ ID x ∈ ID <$> rs).
Proof.
  intros [Hk Hdis] (ws & m & [_ Hws] & Hm & ->)%Revoke_success_inv x.
  destruct (revoked_slice ord rs ws m Hm) as (_ & Hel & Hids & _).
  assert (Hall : ∀ r, r ∈ rs → ID r ∈ ID <$> ws).
  { intros r Hr. apply participantSliceToMap_is_Some.
    by apply mk_is_Some, revokeLoop_is_Some in Hm as [_ Hm]; apply Hm. }
  unfold AvailableParticipants. rewrite !elem_of_available_keyed by done.
  simpl. rewrite (winnerIDs_shrink _ _ ws) by (done || by intros y [? _]%Hel).
  rewrite Hids. split.
  - intros [Hreg Hn]. destruct (decide (ID x ∈ ID <$> rs)); [by right; eauto|].
    left. split; [done|]. intros Hw. apply Hn. split; [done|]. by intros ?.
  - intros [[Hreg Hn] | [Hreg Hr]]; (split; [done|]).
    + by intros [? _].
    + intros [_ Himp]. destruct Himp as [_ Hn]; [|done].
      apply list_elem_of_fmap in Hr as (r & -> & Hr). by apply Hall.
Qed.

Lemma Revoke_returns_to_pool_witness :
  demo_A ∈ AvailableParticipants [] (Revoke [] demo_d2 1 [demo_A]).1 2.
Proof.
  apply (proj2 (Revoke_returns_to_pool [] [] demo_d2 1 2 [demo_A]
                  (Revoke [] demo_d2 1 [demo_A]).1
                  ltac:(split; [apply (bool_decide_unpack _); vm_compute;
                                exact I
                               | apply winnersDisjoint_of_NoDup;
                                 apply (bool_decide_unpack _); vm_compute;
                                 exact I])
                  ltac:(vm_compute; reflexivity) demo_A)).
  right. split; [exists "a"%string; vm_compute; reflexivity | left].
Defined.

(** X11.  After [ClearAllWinners] every registered participant is
    available again, each once, whatever the winners were. *)
Theorem ClearAllWinners_frees_everyone ord ord' d prizeNo :
  AvailableParticipants ord (ClearAllWinners d) prizeNo ≡ₚ Participants ord' d.
Proof.
  unfold AvailableParticipants, Participants.
  rewrite availableParticipants_perm, participantMapToSlice_perm. simpl.
  rewrite map_filter_id; [done|]. intros k x _. simpl.
  unfold winnerIDs. rewrite map_to_list_empty. apply not_elem_of_nil.
Qed.

(** X12.  [ClearWinners] returns the winners of its prize to the pool and
    changes the pool in no other way, in a well-formed session; on a
    prize without winners it leaves the pool as it was. *)
Theorem ClearWinners_returns_to_pool ord d prizeNo q :
  Inv d →
  ∀ x, x ∈ AvailableParticipants ord (ClearWinners d prizeNo) q ↔
       x ∈ AvailableParticipants ord d q ∨
       ((∃ k, participants d !! k = Some x) ∧
        ID x ∈ ID <$> Winners d prizeNo).
Proof.
  intros [Hk Hdis] x. unfold AvailableParticipants, Winners.
  rewrite !elem_of_available_keyed by done. simpl.
  destruct (winners d !! prizeNo) as [ws|] eqn:Hws.
  - rewrite (lookup_total_Some _ _ _ Hws).
    rewrite (winnerIDs_shrink _ _ ws) by (done || by intros y ?%elem_of_nil).
    split.
    + intros [Hreg Hn]. destruct (decide (ID x ∈ ID <$> ws)); [by right|].
      left. split; [done|]. intros Hw. apply Hn. by split.
    + intros [[Hreg Hn] | [Hreg Hr]]; (split; [done|]).
      * by intros [? _].
      * intros [_ Himp]. by apply Himp, elem_of_nil in Hr.
  - rewrite winnerIDs_insert. split.
    + intros [Hreg Hn]. left. split; [done|].
      intros (p' & l & w & Hl & Hw & Hid)%elem_of_winnerIDs. apply Hn. right.
      exists p', l, w. split_and!; try done. congruence.
    + intros [[Hreg Hn] | [_ Hr]]; [|by apply elem_of_nil in Hr].
      split; [done|].
      intros [Hn'%elem_of_nil | (p' & l & w & _ & Hl & Hw & Hid)]; [done|].
      apply Hn, elem_of_winnerIDs. by exists p', l, w.
Qed.

Lemma ClearWinners_returns_to_pool_witness :
  demo_B ∈ AvailableParticipants [] (ClearWinners demo_d2 1) 1.
Proof.
  apply (proj2 (ClearWinners_returns_to_pool [] demo_d2 1 1
                  ltac:(split; [apply (bool_decide_unpack _); vm_compute;
                                exact I
                               | apply winnersDisjoint_of_NoDup;
                                 apply (bool_decide_unpack _); vm_compute;
                                 exact I]) demo_B)).
  right. split; [exists "b"%string; vm_compute; reflexivity|].
  vm_compute. left.
Defined.

(** X13.  A [Draw] with at least as many slots as available participants
    draws them all: where every participant is registered under its own
    id, nobody is available afterwards, and a [Draw] on any other
    registered, undrawn prize with a positive amount fails with
    [ErrNoAvailableParticipants]. *)
Theorem Draw_exhausts_pool ord rnd ord' rnd' d prizeNo q pz pq d' ws :
  keyedByID (participants d) →
  prizes d !! prizeNo = Some pz →
  Z.of_nat (length (AvailableParticipants ord d prizeNo)) ≤ Amount pz →
  Draw ord rnd d prizeNo = (d', (ws, None)) →
  ws ≡ₚ AvailableParticipants ord d prizeNo ∧
  AvailableParticipants ord' d' q = [] ∧
  (prizes d !! q = Some pq → 1 ≤ Amount pq → winners d' !! q = None →
   Draw ord' rnd' d' q = (d', ([], Some ErrNoAvailableParticipants))).
Proof.
  intros Hk Hp Hle HD.
  destruct (Draw_pool_after ord rnd ord' d prizeNo q d' ws Hk HD)
    as [Hel Hlen].
  apply Draw_success_guards in HD
    as (pz' & Hp' & Ha & Hnone & -> & Hsub & Hl & _).
  assert (pz' = pz) as -> by congruence.
  unfold AvailableParticipants in *.
  assert (Hperm : ws ≡ₚ availableParticipants ord d prizeNo).
  { apply submseteq_length_Permutation; [done|]. lia. }
  assert (Hnil : availableParticipants ord'
                   (with_winners d (<[prizeNo := ws]> (winners d))) q = []).
  { apply nil_length_inv.
    rewrite (Permutation_length
               (availableParticipants_perm ord' d q)) in Hlen.
    rewrite <- (Permutation_length
                  (availableParticipants_perm ord d prizeNo)) in Hlen.
    rewrite (Permutation_length Hperm) in Hlen. lia. }
  split_and!; [done..|].
  intros Hq Haq Hwq. eapply Draw_none_available; [done..|].
  by rewrite Hnil.
Qed.

Lemma Draw_exhausts_pool_witness :
  AvailableParticipants [] (Draw [] [0; 0; 0]%nat
                              (SetPrize demo_d1 1 "first" 5 "") 1).1 2 = [].
Proof.
  refine (proj1 (proj2 (Draw_exhausts_pool [] [0; 0; 0]%nat [] [] 
                   (SetPrize demo_d1 1 "first" 5 "") 1 2
                   (mkPrize 1 "first" 5 "") (mkPrize 1 "first" 5 "")
                   (Draw [] [0; 0; 0]%nat (SetPrize demo_d1 1 "first" 5 "") 1).1
                   [demo_C; demo_B; demo_A] _ _ _ _))).
  - apply (bool_decide_unpack _). vm_compute. exact I.
  - vm_compute. reflexivity.
  - vm_compute. intros [=].
  - vm_compute. reflexivity.
Defined.

(** ** The guards of Revoke and Redraw *)

(** X14.  [Revoke] tests, in this order, that the prize is registered
    ([ErrPrizeNo]), that its amount is at least 1 ([ErrPrizeAmount]) and
    that it has a winner entry ([ErrNoOriginalWinnersBeforeRedraw]); each
    failure leaves the session as it was, whatever is to be revoked.
    Revoking nobody from a drawn prize succeeds and keeps its winners
    (each once, when their ids are distinct). *)
Theorem Revoke_guards ord d prizeNo rs :
  (prizes d !! prizeNo = None →
     Revoke ord d prizeNo rs = (d, Some ErrPrizeNo)) ∧
  (∀ pz, prizes d !! prizeNo = Some pz →
     (Amount pz < 1 → Revoke ord d prizeNo rs = (d, Some ErrPrizeAmount)) ∧
     (1 ≤ Amount pz → winners d !! prizeNo = None →
        Revoke ord d prizeNo rs
        = (d, Some ErrNoOriginalWinnersBeforeRedraw)) ∧
     (∀ ws, 1 ≤ Amount pz → winners d !! prizeNo = Some ws →
        NoDup (ID <$> ws) →
        ∃ ws', Revoke ord d prizeNo []
               = (mkLottery (name d) (prizes d) (participants d)
                            (<[prizeNo := ws']> (winners d)), None) ∧
               ws' ≡ₚ ws)).
Proof.
  split.
  - intros Hp. unfold Revoke. by rewrite Hp.
  - intros pz Hp. split_and!.
    + intros Ha. unfold Revoke. rewrite Hp, (lookup_total_Some _ _ _ Hp).
      by destruct (Z.ltb_spec (Amount pz) 1); [|lia].
    + intros Ha Hw. unfold Revoke.
      rewrite Hp, (lookup_total_Some _ _ _ Hp), Hw.
      by destruct (Z.ltb_spec (Amount pz) 1); [lia|].
    + intros ws Ha Hw Hnd.
      rewrite (Revoke_guards_passed ord d prizeNo [] ws) by (split; eauto).
      simpl. eexists. split; [reflexivity|].
      destruct (revoked_slice ord [] ws (participantSliceToMap ws) eq_refl)
        as (_ & _ & _ & Hperm).
      rewrite (Hperm Hnd). clear.
      induction ws as [|x ws IH]; [done|].
      rewrite filter_cons_True by apply not_elem_of_nil. by rewrite IH.
Qed.

Lemma Revoke_guards_witness :
  Revoke [] demo_d1 5 [demo_A] = (demo_d1, Some ErrPrizeNo) ∧
  Revoke [] demo_d1 1 [demo_A]
  = (demo_d1, Some ErrNoOriginalWinnersBeforeRedraw).
Proof.
  destruct (Revoke_guards [] demo_d1 5 [demo_A]) as [H5 _].
  destruct (Revoke_guards [] demo_d1 1 [demo_A]) as [_ H1].
  split; [apply H5; vm_compute; reflexivity|].
  destruct (H1 (mkPrize 1 "first" 2 "")) as (_ & H & _);
    [vm_compute; reflexivity|].
  apply H; [simpl; lia | vm_compute; reflexivity].
Defined.

(** X15.  [Redraw] tests, in this order, that the prize is registered
    ([ErrPrizeNo]), that its amount is at least 1 ([ErrPrizeAmount]),
    that it has a winner entry ([ErrWinnersNotExistBeforeReDraw]) and that
    the requested amount fits; then, if nobody is available, it fails
    with [ErrNoAvailableParticipants], even when nothing is requested.
    Otherwise it succeeds and what it returns is a sample of the
    available participants: [min(amount, available)] of them (nobody for
    a non-positive amount), each at most once. *)
Theorem Redraw_guards ord rnd d prizeNo amount :
  (prizes d !! prizeNo = None →
     Redraw ord rnd d prizeNo amount = (d, ([], Some ErrPrizeNo))) ∧
  (∀ pz, prizes d !! prizeNo = Some pz →
     (Amount pz < 1 →
        Redraw ord rnd d prizeNo amount = (d, ([], Some ErrPrizeAmount))) ∧
     (1 ≤ Amount pz → winners d !! prizeNo = None →
        Redraw ord rnd d prizeNo amount
        = (d, ([], Some ErrWinnersNotExistBeforeReDraw))) ∧
     (∀ ws, 1 ≤ Amount pz → winners d !! prizeNo = Some ws →
        amount ≤ Amount pz - Z.of_nat (length ws) →
        (AvailableParticipants ord d prizeNo = [] →
           Redraw ord rnd d prizeNo amount
           = (d, ([], Some ErrNoAvailableParticipants))) ∧
        (AvailableParticipants ord d prizeNo ≠ [] →
           ∃ new,
             Redraw ord rnd d prizeNo amount
             = (mkLottery (name d) (prizes d) (participants d)
                          (<[prizeNo := ws ++ new]> (winners d)),
                (new, None)) ∧
             new ⊆+ AvailableParticipants ord d prizeNo ∧
             length new
             = Z.to_nat
                 (Z.min amount
                    (Z.of_nat
                       (length (AvailableParticipants ord d prizeNo))))))).
Proof.
  split.
  - intros Hp. unfold Redraw. by rewrite Hp.
  - intros pz Hp. split_and!.
    + intros Ha. unfold Redraw. rewrite Hp, (lookup_total_Some _ _ _ Hp).
      by destruct (Z.ltb_spec (Amount pz) 1); [|lia].
    + intros Ha Hw. unfold Redraw.
      rewrite Hp, (lookup_total_Some _ _ _ Hp), Hw.
      by destruct (Z.ltb_spec (Amount pz) 1); [lia|].
    + intros ws Ha Hw Hle. unfold AvailableParticipants.
      rewrite (Redraw_guards_passed ord rnd d prizeNo amount ws)
        by (split; eauto).
      rewrite (lookup_total_Some _ _ _ Hp).
      destruct (Z.gtb_spec amount (Amount pz - Z.of_nat (length ws))); [lia|].
      split.
      * intros ->. done.
      * intros Hne. destruct (decide _) as [Hl|_].
        { by apply nil_length_inv in Hl. }
        destruct (draw_spec rnd amount (availableParticipants ord d prizeNo))
          as (new & -> & Hlen & Hsub).
        by exists new.
Qed.

Lemma Redraw_guards_witness :
  Redraw [] [] demo_d1 5 1 = (demo_d1, ([], Some ErrPrizeNo)) ∧
  Redraw [] [] demo_d1 1 1
  = (demo_d1, ([], Some ErrWinnersNotExistBeforeReDraw)).
Proof.
  destruct (Redraw_guards [] [] demo_d1 5 1) as [H5 _].
  destruct (Redraw_guards [] [] demo_d1 1 1) as [_ H1].
  split; [apply H5; vm_compute; reflexivity|].
  destruct (H1 (mkPrize 1 "first" 2 "")) as (_ & H & _);
    [vm_compute; reflexivity|].
  apply H; [simpl; lia | vm_compute; reflexivity].
Defined.

(** X16.  [Draw], [Revoke], [Redraw] and [Load] are all-or-nothing:
    whenever one of them returns an error, the session is what it was
    before the call (and [Draw] and [Redraw] return no winner). *)
Theorem failures_change_nothing d :
  (∀ ord rnd prizeNo e ws d',
     Draw ord rnd d prizeNo = (d', (ws, Some e)) → d' = d ∧ ws = []) ∧
  (∀ ord prizeNo rs e d',
     Revoke ord d prizeNo rs = (d', Some e) → d' = d) ∧
  (∀ ord rnd prizeNo amount e ws d',
     Redraw ord rnd d prizeNo amount = (d', (ws, Some e)) →
     d' = d ∧ ws = []) ∧
  (∀ r e d', Load d r = (d', Some e) → d' = d).
Proof.
  split_and!.
  - intros ord rnd prizeNo e ws d'. unfold Draw.
    repeat case_match; by intros [= <- <- <-].
  - intros ord prizeNo rs e d'. unfold Revoke.
    repeat case_match; by intros [= <- <-].
  - intros ord rnd prizeNo amount e ws d'. unfold Redraw.
    repeat case_match; by intros [= <- <- <-].
  - intros r e d'. unfold Load. repeat case_match; by intros [= <- <-].
Qed.

(** ** Bulk loading, the rest *)

Lemma loadParticipantRows_good (ps : list Participant) rest m :
  loadParticipantRows (((λ p, [ID p; Name p]) <$> ps) ++ rest) m
  = loadParticipantRows rest (foldl (fun m p => <[ID p := p]> m) m ps).
Proof.
  revert m. induction ps as [|[id nm] ps IH]; intros m; [done|].
  simpl. apply IH.
Qed.

(** X17.  [LoadParticipantsCSV] returns a reader's error without touching
    the session.  Otherwise it empties the participants, skips the first
    row and registers the data rows in order, each under its id, a later
    row replacing an earlier one of the same id.  If every data row has
    two fields there is no error and the participants are exactly those
    of the rows; at the first row without two fields it returns
    [ErrParticipantsCSV] and the participants are those of the rows before
    it.  Prizes and winners are never touched. *)
Theorem LoadParticipantsCSV_contract d :
  (∀ e, LoadParticipantsCSV d (ReadErr e) = (d, Some e)) ∧
  LoadParticipantsCSV d (ReadOk [])
  = (mkLottery (name d) (prizes d) ∅ (winners d), None) ∧
  (∀ hdr ps,
     LoadParticipantsCSV d (ReadOk (hdr :: ((λ p, [ID p; Name p]) <$> ps)))
     = (mkLottery (name d) (prizes d) (participantSliceToMap ps) (winners d),
        None)) ∧
  (∀ hdr ps bad post,
     length bad ≠ 2%nat →
     LoadParticipantsCSV d
       (ReadOk (hdr :: ((λ p, [ID p; Name p]) <$> ps) ++ bad :: post))
     = (mkLottery (name d) (prizes d) (participantSliceToMap ps) (winners d),
        Some ErrParticipantsCSV)).
Proof.
  split_and!.
  - done.
  - done.
  - intros hdr ps. unfold LoadParticipantsCSV. simpl. rewrite drop_0.
    rewrite <- (app_nil_r (_ <$> ps)), loadParticipantRows_good. done.
  - intros hdr ps bad post Hbad. unfold LoadParticipantsCSV. simpl.
    rewrite drop_0, loadParticipantRows_good. simpl.
    by destruct bad as [|c0 [|c1 [|? ?]]].
Qed.

Lemma LoadParticipantsCSV_contract_witness :
  LoadParticipantsCSV demo_d2
    (ReadOk [ ["id"; "name"]; ["e"; "Eve"]; ["f"]; ["g"; "Gus"] ]%string)
  = (mkLottery (name demo_d2) (prizes demo_d2)
               (participantSliceToMap [mkParticipant "e" "Eve"])
               (winners demo_d2),
     Some ErrParticipantsCSV).
Proof.
  destruct (LoadParticipantsCSV_contract demo_d2) as (_ & _ & _ & H).
  apply (H ["id"; "name"]%string [mkParticipant "e" "Eve"] ["f"]%string
           [["g"; "Gus"]%string]).
  simpl. lia.
Defined.

(** X18.  [LoadPrizesCSV] returns a reader's error without touching the
    session.  When every data row is well formed there is no error and
    the prizes are exactly those of the rows, a later row replacing an
    earlier one of the same number: every prize registered before is
    gone.  Participants and winners are never touched, so the winners
    of a prize that is no longer registered stay. *)
Theorem LoadPrizesCSV_replaces d :
  (∀ e, LoadPrizesCSV d (ReadErr e) = (d, Some e)) ∧
  LoadPrizesCSV d (ReadOk [])
  = (mkLottery (name d) ∅ (participants d) (winners d), None) ∧
  (∀ hdr rows ps,
     Forall2 (λ row p, rowPrize row = Some p) rows ps →
     LoadPrizesCSV d (ReadOk (hdr :: rows))
     = (mkLottery (name d) (insertPrizes ps) (participants d) (winners d),
        None)).
Proof.
  split_and!; [done..|].
  intros hdr rows ps Hrows. unfold LoadPrizesCSV. simpl. rewrite drop_0.
  rewrite <- (app_nil_r rows), (loadPrizeRows_good rows ps [] ∅ Hrows).
  done.
Qed.

Lemma LoadPrizesCSV_replaces_witness :
  LoadPrizesCSV demo_d2
    (ReadOk [ ["no"; "name"; "amount"; "desc"]; ["7"; "x"; "2"; "d"];
              ["7"; "y"; "3"; ""] ]%string)
  = (mkLottery (name demo_d2)
               (insertPrizes [mkPrize 7 "x" 2 "d"; mkPrize 7 "y" 3 ""])
               (participants demo_d2) (winners demo_d2), None).
Proof.
  destruct (LoadPrizesCSV_replaces demo_d2) as (_ & _ & H).
  apply H. repeat constructor.
Defined.

(** ** Spaces around the numbers of a prize row *)

Lemma list_ascii_of_string_app s1 s2 :
  list_ascii_of_string (s1 +:+ s2)
  = list_ascii_of_string s1 ++ list_ascii_of_string s2.
Proof. induction s1 as [|c s1 IH]; [done|]. simpl. by rewrite IH. Qed.

Lemma list_ascii_of_spaces n :
  list_ascii_of_string (spaces n) = replicate n " "%char.
Proof. unfold spaces. apply list_ascii_of_string_of_list_ascii. Qed.

Lemma trimLeft_spaces n cs : trimLeft (replicate n " "%char ++ cs) = trimLeft cs.
Proof. induction n as [|n IH]; [done|]. simpl. apply IH. Qed.

Lemma rev_replicate {A} n (x : A) : rev (replicate n x) = replicate n x.
Proof.
  induction n as [|n IH]; [done|]. simpl. rewrite IH.
  clear. induction n as [|n IH]; [done|]. simpl. by rewrite IH.
Qed.

Lemma Trim_spaces a b s : Trim (spaces a +:+ s +:+ spaces b) = Trim s.
Proof.
  unfold Trim. f_equal. f_equal.
  rewrite !list_ascii_of_string_app, !list_ascii_of_spaces.
  rewrite trimLeft_spaces.
  destruct (trimLeft (list_ascii_of_string s)) as [|c cs] eqn:E.
  - assert (Hall : ∀ l, trimLeft l = [] → trimLeft (l ++ replicate b " "%char) = []).
    { clear. intros l. induction l as [|c l IH]; simpl.
      - intros _. rewrite <- (app_nil_r (replicate b _)).
        by rewrite trimLeft_spaces.
      - destruct (Ascii.eqb c " "); [done | discriminate]. }
    rewrite (Hall _ E). done.
  - assert (Hne : ∀ l c cs, trimLeft l = c :: cs →
              trimLeft (l ++ replicate b " "%char)
              = (c :: cs) ++ replicate b " "%char).
    { clear. intros l. induction l as [|c' l IH]; intros c cs; simpl; [done|].
      destruct (Ascii.eqb c' " ") eqn:Hc; [apply IH|].
      intros [= -> ->]. done. }
    rewrite (Hne _ _ _ E), rev_app_distr, rev_replicate, trimLeft_spaces.
    done.
Qed.

Lemma loadPrizeRows_app_ext pre l1 l2 m :
  (∀ m', loadPrizeRows l1 m' = loadPrizeRows l2 m') →
  loadPrizeRows (pre ++ l1) m = loadPrizeRows (pre ++ l2) m.
Proof.
  intros Hext. revert m. induction pre as [|row pre IH]; intros m; [apply Hext|].
  simpl. repeat case_match; try done; apply IH.
Qed.

(** X19.  Spaces before and after the number and the amount of a prize
    row are ignored: the file loads as the file without them does, with
    the same prizes and the same error, if any.  The name and the
    description are taken as they are. *)
Theorem LoadPrizesCSV_ignores_spaces d hdr pre post a b a' b' c0 c1 c2 c3 :
  LoadPrizesCSV d
    (ReadOk (hdr :: pre
               ++ [spaces a +:+ c0 +:+ spaces b; c1;
                   spaces a' +:+ c2 +:+ spaces b'; c3] :: post))
  = LoadPrizesCSV d (ReadOk (hdr :: pre ++ [c0; c1; c2; c3] :: post)).
Proof.
  unfold LoadPrizesCSV. simpl. rewrite !drop_0.
  rewrite (loadPrizeRows_app_ext pre _ ([c0; c1; c2; c3] :: post)); [done|].
  intros m'. simpl. by rewrite !Trim_spaces.
Qed.

(** ** Saving and loading, the rest *)

(** X20.  What [Save] hands to the encoder, [Load] reads back: loading
    that record into any session gives the session the prizes,
    participants and winners of the saved one, without error; the loading
    session keeps its own name, and a session of the same name becomes
    the saved one.  Saving the loaded session again gives a record that
    loads to the same, and a session that loaded a record saves it with
    the checksum the record came with. *)
Theorem Save_Load_roundtrip d0 d tm tm' :
  Load d (ReadOk (Save d0 tm))
  = (mkLottery (name d) (prizes d0) (participants d0) (winners d0), None) ∧
  (name d = name d0 → (Load d (ReadOk (Save d0 tm))).1 = d0) ∧
  Load d (ReadOk (Save (Load d (ReadOk (Save d0 tm))).1 tm'))
  = Load d (ReadOk (Save d0 tm)) ∧
  (∀ data d', Load d (ReadOk data) = (d', None) →
              sdChecksum (Save d' tm') = sdChecksum data).
Proof.
  split_and!.
  - apply Load_Save.
  - intros Hn. rewrite Load_Save. simpl. rewrite Hn. by destruct d0.
  - by rewrite !Load_Save.
  - intros data d'. unfold Load.
    destruct (decide _) as [|Heq]; [discriminate|].
    intros [= <-]. simpl.
    destruct (decide (sprintfX (computeWinnersHash (default ∅ (sdWinners data)))
                      = sdChecksum data)) as [He|Hne]; [exact He|].
    exfalso. exact (Heq Hne).
Qed.

Lemma Save_Load_roundtrip_witness :
  (Load (New "demo") (ReadOk (Save demo_d2 demo_time))).1 = demo_d2.
Proof.
  apply (proj1 (proj2 (Save_Load_roundtrip demo_d2 (New "demo") demo_time
                         demo_time))).
  reflexivity.
Defined.

Lemma land_255 x : 0 ≤ Z.land x 255 < 256.
Proof.
  change 255 with (Z.ones 8). rewrite Z.land_ones by lia.
  apply Z.mod_pos_bound. lia.
Qed.

Lemma MD5_sum_bytes msg :
  length (MD5.sum msg) = 16%nat ∧ Forall (λ b, 0 ≤ b < 256) (MD5.sum msg).
Proof.
  unfold MD5.sum. destruct (MD5.blocks _ _ _) as [a b c d].
  split; [done|]. unfold MD5.bytes_of_word. simpl.
  repeat (constructor; [apply land_255|]). constructor.
Qed.

Lemma hexDigit_upper n : 0 ≤ n < 16 → isUpperHex (hexDigit n) = true.
Proof.
  intros Hn.
  assert (Hc : n = 0 ∨ n = 1 ∨ n = 2 ∨ n = 3 ∨ n = 4 ∨ n = 5 ∨ n = 6 ∨ n = 7
               ∨ n = 8 ∨ n = 9 ∨ n = 10 ∨ n = 11 ∨ n = 12 ∨ n = 13 ∨ n = 14
               ∨ n = 15) by lia.
  repeat (destruct Hc as [-> | Hc]; [reflexivity|]). by subst.
Qed.

Lemma length_string_of_list_ascii l :
  String.length (string_of_list_ascii l) = length l.
Proof. induction l as [|c l IH]; [done|]. simpl. by rewrite IH. Qed.

Lemma sprintfX_format bs :
  Forall (λ b, 0 ≤ b < 256) bs →
  String.length (sprintfX bs) = (2 * length bs)%nat ∧
  Forall (λ c, isUpperHex c = true) (list_ascii_of_string (sprintfX bs)).
Proof.
  unfold sprintfX.
  rewrite length_string_of_list_ascii, list_ascii_of_string_of_list_ascii.
  induction 1 as [|b bs Hb _ [IH1 IH2]]; [split; [done | constructor]|].
  rewrite bind_cons. simpl. split; [rewrite IH1; lia|].
  constructor; [apply hexDigit_upper|constructor; [apply hexDigit_upper|done]].
  - split; [apply Z.div_pos; lia | apply Z.div_lt_upper_bound; lia].
  - apply Z.mod_pos_bound. lia.
Qed.

(** X21.  The checksum [Save] stores is 32 characters long, each a
    decimal digit or one of the capitals A to F; and [Load] compares the
    stored checksum as a string.  So [Load] rejects with [ErrChecksum],
    leaving the session as it was, every record whose checksum is not 32
    characters long or holds any other character, a lower-case one for
    example. *)
Theorem checksum_format :
  (∀ d tm,
     String.length (sdChecksum (Save d tm)) = 32%nat ∧
     Forall (λ c, isUpperHex c = true)
            (list_ascii_of_string (sdChecksum (Save d tm)))) ∧
  (∀ d data,
     String.length (sdChecksum data) ≠ 32%nat
     ∨ Exists (λ c, isUpperHex c = false)
              (list_ascii_of_string (sdChecksum data)) →
     Load d (ReadOk data) = (d, Some ErrChecksum)).
Proof.
  assert (Hfmt : ∀ w,
    String.length (sprintfX (computeWinnersHash w)) = 32%nat ∧
    Forall (λ c, isUpperHex c = true)
           (list_ascii_of_string (sprintfX (computeWinnersHash w)))).
  { intros w. unfold computeWinnersHash, hSum.
    destruct (MD5_sum_bytes
                (feedWinners w [] (merge_sort Z.le (map_to_list w).*1)))
      as [Hlen Hr].
    destruct (sprintfX_format _ Hr) as [H1 H2]. rewrite Hlen in H1.
    split; [exact H1 | exact H2]. }
  split.
  - intros d tm. apply Hfmt.
  - intros d data Hbad. apply Load_rejects. intros Heq.
    destruct (Hfmt (default ∅ (sdWinners data))) as [H1 H2].
    rewrite Heq in H1, H2. destruct Hbad as [Hl | Hex]; [by apply Hl|].
    apply Exists_exists in Hex as (c & Hc & Hf).
    rewrite Forall_forall in H2. rewrite (H2 c Hc) in Hf. discriminate.
Qed.

Lemma checksum_format_witness :
  Load demo_d1
       (ReadOk (mkSaveData "demo" None None (sdWinners demo_double) ""
                           "79a028cc90a420aa8e76af1c9d801567"))
  = (demo_d1, Some ErrChecksum).
Proof.
  apply (proj2 checksum_format). right.
  apply Exists_cons_tl, Exists_cons_tl, Exists_cons_hd. reflexivity.
Defined.

(** ** Slices and maps of participants *)

(** X22.  Map to slice to map, and back: a map of participants registered
    under their own ids is what [participantSliceToMap] rebuilds from any
    listing [participantMapToSlice] gives of it; a slice of participants
    with distinct ids comes back from the map as the same participants,
    in some order; and of participants that share an id the map keeps
    the last one only. *)
Theorem participant_slice_map_roundtrip ord :
  (∀ m, keyedByID m →
        participantSliceToMap (participantMapToSlice ord m) = m) ∧
  (∀ s, NoDup (ID <$> s) →
        participantMapToSlice ord (participantSliceToMap s) ≡ₚ s) ∧
  (∀ s p q, ID p = ID q →
        participantSliceToMap (s ++ [p; q]) = participantSliceToMap (s ++ [q])).
Proof.
  split_and!.
  - intros m Hk. apply map_eq. intros k.
    pose proof (participantMapToSlice_NoDup ord m Hk) as Hnd.
    destruct (m !! k) as [p|] eqn:Hp.
    + pose proof (Hk k p Hp) as Hid. simpl in Hid. subst k.
      apply participantSliceToMap_lookup; [done|].
      apply elem_of_participantMapToSlice. eauto.
    + apply eq_None_not_Some. intros Hs.
      apply participantSliceToMap_is_Some in Hs.
      apply list_elem_of_fmap in Hs as (p & -> & Hin).
      apply elem_of_participantMapToSlice in Hin as [k' Hk'].
      pose proof (Hk k' p Hk') as Hid. simpl in Hid. congruence.
  - intros s Hnd. apply NoDup_Permutation.
    + eapply NoDup_fmap_1. apply participantMapToSlice_NoDup.
      apply participantSliceToMap_keyed.
    + by eapply NoDup_fmap_1.
    + intros x. rewrite elem_of_participantMapToSlice. split.
      * intros [k Hk]. by eapply participantSliceToMap_elem.
      * intros Hx. exists (ID x). by apply participantSliceToMap_lookup.
  - intros s p q Heq.
    replace (s ++ [p; q]) with ((s ++ [p]) ++ [q])
      by (by rewrite <- app_assoc).
    rewrite !participantSliceToMap_snoc.
    by rewrite Heq, insert_insert_eq.
Qed.

Lemma participant_slice_map_roundtrip_witness :
  participantMapToSlice [1]%nat (participantSliceToMap [demo_A; demo_B])
  ≡ₚ [demo_A; demo_B].
Proof.
  apply (proj1 (proj2 (participant_slice_map_roundtrip [1]%nat))).
  apply (bool_decide_unpack _). vm_compute. exact I.
Defined.

(** X23.  [Participants] lists every registered participant exactly once,
    as many as the map holds, and in every session reached by public
    operations that load well-formed records only, no two of the listed
    participants share an id. *)
Theorem Participants_lists_each_once ord nm ops :
  Forall wfOp ops →
  Participants ord (run (New nm) ops)
  ≡ₚ snd <$> map_to_list (participants (run (New nm) ops)) ∧
  length (Participants ord (run (New nm) ops))
  = size (participants (run (New nm) ops)) ∧
  NoDup (ID <$> Participants ord (run (New nm) ops)).
Proof.
  intros Hops. unfold Participants. split_and!.
  - apply participantMapToSlice_perm.
  - by rewrite participantMapToSlice_perm, length_fmap, length_map_to_list.
  - apply participantMapToSlice_NoDup.
    by destruct (run_Inv (New nm) ops Hops (New_Inv nm)) as [? _].
Qed.

Lemma Participants_lists_each_once_witness :
  NoDup (ID <$> Participants [2; 0]%nat
                  (run (New "demo")
                     [OpLoadParticipantsCSV demo_rows4;
                      OpSetPrize 1 "first" 3 ""])).
Proof.
  refine (proj2 (proj2 (Participants_lists_each_once [2; 0]%nat "demo"
                          [OpLoadParticipantsCSV demo_rows4;
                           OpSetPrize 1 "first" 3 ""] _))).
  repeat constructor.
Defined.

(** ** Reading the winners *)

(** X24.  [Winners] shows what the operations did.  It returns the empty
    slice for a prize without winner entry.  After a successful [Draw]
    it returns, for that prize, exactly what [Draw] returned; after a
    successful [Redraw], what it returned before followed by what
    [Redraw] returned; after [ClearWinners], nobody; and each of the
    three leaves what [Winners] returns for every other prize as it was.
    After [ClearAllWinners] it returns nobody for every prize. *)
Theorem Winners_after d prizeNo :
  (winners d !! prizeNo = None → Winners d prizeNo = []) ∧
  (∀ ord rnd d' ws,
     Draw ord rnd d prizeNo = (d', (ws, None)) →
     Winners d' prizeNo = ws ∧
     ∀ q, q ≠ prizeNo → Winners d' q = Winners d q) ∧
  (∀ ord rnd amount d' new,
     Redraw ord rnd d prizeNo amount = (d', (new, None)) →
     Winners d' prizeNo = Winners d prizeNo ++ new ∧
     ∀ q, q ≠ prizeNo → Winners d' q = Winners d q) ∧
  (Winners (ClearWinners d prizeNo) prizeNo = [] ∧
   ∀ q, q ≠ prizeNo → Winners (ClearWinners d prizeNo) q = Winners d q) ∧
  Winners (ClearAllWinners d) prizeNo = [].
Proof.
  assert (HW : ∀ d q, Winners d q = default [] (winners d !! q)).
  { intros d0 q. unfold Winners.
    destruct (winners d0 !! q) as [l|] eqn:Hl; [|done].
    by rewrite (lookup_total_Some _ _ _ Hl). }
  split_and!.
  - intros Hn. by rewrite HW, Hn.
  - intros ord rnd d' ws [_ ->]%Draw_success_inv. rewrite !HW. simpl.
    rewrite lookup_insert_eq. split; [done|].
    intros q Hq. rewrite !HW. simpl. by rewrite lookup_insert_ne.
  - intros ord rnd amount d' new
      (pz & ws & _ & _ & Hw & _ & -> & _)%Redraw_success_inv.
    rewrite !HW. simpl. rewrite lookup_insert_eq, Hw. split; [done|].
    intros q Hq. rewrite !HW. simpl. by rewrite lookup_insert_ne.
  - rewrite HW. simpl. by rewrite lookup_insert_eq.
  - intros q Hq. rewrite !HW. simpl. by rewrite lookup_insert_ne.
  - by rewrite HW.
Qed.

Lemma Winners_after_witness :
  Winners demo_d2 1 = [demo_B; demo_A] ∧ Winners demo_d2 2 = Winners demo_d1 2.
Proof.
  destruct (Winners_after demo_d1 1) as (_ & H & _).
  destruct (H [] [2; 1]%nat demo_d2 [demo_B; demo_A]) as [H1 H2];
    [vm_compute; reflexivity|].
  split; [exact H1 | apply H2; lia].
Defined.

(** ** Revoking frees slots *)

Lemma revoked_count ord rs ws m :
  NoDup (ID <$> ws) →
  revokeLoop rs (participantSliceToMap ws) = Some m →
  (length (participantMapToSlice ord m) + length rs = length ws)%nat.
Proof.
  intros Hnd Hm.
  destruct (revoked_slice ord rs ws m Hm) as (Hnd' & _ & Hids & _).
  pose proof Hm as Hs. apply mk_is_Some, revokeLoop_is_Some in Hs as [Hndr Hall].
  rewrite <- (length_fmap ID (participantMapToSlice ord m)),
          <- (length_fmap ID rs), <- (length_fmap ID ws), <- length_app.
  apply Permutation_length, NoDup_Permutation; [|done|].
  - apply NoDup_app. split_and!; [done| |done].
    intros k Hk. by apply Hids in Hk as [_ ?].
  - intros k. rewrite elem_of_app, Hids. split.
    + intros [[? _] | (r & -> & Hr)%list_elem_of_fmap]; [done|].
      by apply participantSliceToMap_is_Some, Hall.
    + intros Hk. destruct (decide (k ∈ ID <$> rs)); [by right | by left].
Qed.

(** X25.  Revoking frees slots.  In a well-formed session, after a
    successful [Revoke] the prize has as many fewer winners as were
    revoked; if it had no more winners than slots before, a [Redraw] of
    up to as many winners as were revoked passes the capacity test, and
    it succeeds, with again no more winners than slots, as soon as
    somebody is available (the revoked winners are, if still
    registered). *)
Theorem Revoke_frees_slots ord ord' rnd d prizeNo rs d1 pz ws k :
  Inv d →
  prizes d !! prizeNo = Some pz →
  winners d !! prizeNo = Some ws →
  Z.of_nat (length ws) ≤ Amount pz →
  Revoke ord d prizeNo rs = (d1, None) →
  0 ≤ k ≤ Z.of_nat (length rs) →
  (length (Winners d1 prizeNo) + length rs = length ws)%nat ∧
  (Redraw ord' rnd d1 prizeNo k).2.2 ≠ Some ErrRedrawPrizeAmount ∧
  (AvailableParticipants ord' d1 prizeNo ≠ [] →
   ∃ new, (Redraw ord' rnd d1 prizeNo k).2 = (new, None) ∧
          Z.of_nat (length (Winners (Redraw ord' rnd d1 prizeNo k).1 prizeNo))
          ≤ Amount pz).
Proof.
  intros [Hk [Hnd _]] Hp Hw Hle HR Hkr.
  apply Revoke_success_inv in HR as (ws0 & m & [(pz0 & Hp0 & Ha) Hw0] & Hm & ->).
  assert (ws0 = ws) as -> by congruence.
  assert (pz0 = pz) as -> by congruence.
  pose proof (revoked_count ord rs ws m (Hnd _ _ Hw) Hm) as Hcount.
  set (ws' := participantMapToSlice ord m) in *.
  set (d1 := with_winners d (<[prizeNo := ws']> (winners d))).
  assert (Hw1 : winners d1 !! prizeNo = Some ws')
    by (simpl; apply lookup_insert_eq).
  assert (HW1 : Winners d1 prizeNo = ws').
  { unfold Winners. by rewrite Hw1, (lookup_total_Some _ _ _ Hw1). }
  assert (Hd1 : drawnPrize d1 prizeNo ws') by (split; eauto).
  rewrite HW1. split; [done|].
  rewrite (Redraw_guards_passed ord' rnd d1 prizeNo k ws' Hd1).
  change (prizes d1) with (prizes d). rewrite (lookup_total_Some _ _ _ Hp).
  destruct (Z.gtb_spec k (Amount pz - Z.of_nat (length ws'))); [lia|].
  unfold AvailableParticipants. split.
  - destruct (decide _); [done|]. by destruct (draw _ _ _).
  - intros Hne. destruct (decide _) as [Hl|_].
    { by apply nil_length_inv in Hl. }
    destruct (draw_spec rnd k (availableParticipants ord' d1 prizeNo))
      as (new & -> & Hlen & _).
    exists new. split; [done|]. simpl.
    unfold Winners. simpl. rewrite lookup_insert_eq, lookup_total_insert_eq.
    rewrite length_app. lia.
Qed.

Lemma Revoke_frees_slots_witness :
  (length (Winners (Revoke [] demo_d2 1 [demo_A]).1 1) + 1 = 2)%nat.
Proof.
  refine (proj1 (Revoke_frees_slots [] [] [] demo_d2 1 [demo_A]
                   (Revoke [] demo_d2 1 [demo_A]).1
                   (mkPrize 1 "first" 2 "") [demo_B; demo_A] 1 _ _ _ _ _ _)).
  - split; [apply (bool_decide_unpack _); vm_compute; exact I|].
    apply winnersDisjoint_of_NoDup.
    apply (bool_decide_unpack _). vm_compute. exact I.
  - vm_compute. reflexivity.
  - vm_compute. reflexivity.
  - simpl. lia.
  - vm_compute. reflexivity.
  - simpl. lia.
Defined.

(** ** Setting and reading a prize *)

(** X26.  [SetPrize] registers the prize under its number, replacing the
    prize that was there, and [Prize] reads it back; every other prize,
    the participants and the winners are as they were, so a prize can
    be set to fewer slots than it has winners.  For a number that is not
    registered [Prize] returns the zero prize. *)
Theorem SetPrize_then_Prize d no nm amount desc :
  GetPrize (SetPrize d no nm amount desc) no = mkPrize no nm amount desc ∧
  (∀ no', no' ≠ no →
          prizes (SetPrize d no nm amount desc) !! no' = prizes d !! no') ∧
  participants (SetPrize d no nm amount desc) = participants d ∧
  winners (SetPrize d no nm amount desc) = winners d ∧
  (∀ no', prizes d !! no' = None → GetPrize d no' = mkPrize 0 "" 0 "").
Proof.
  unfold GetPrize, SetPrize. simpl. split_and!.
  - by rewrite lookup_total_insert_eq.
  - intros no' Hne. by rewrite lookup_insert_ne.
  - done.
  - done.
  - intros no' Hn. by rewrite lookup_total_alt, Hn.
Qed.
